(** * The meetup data pipeline of [scripts/fetch-meetup-data.ts]

    A shallow embedding of the extraction, override and artifact stages of
    the script, and the properties of its specification proved over it.

    Conventions of the embedding.
    - A JavaScript value of the JSON fragment is a [json]; [undefined] (an
      absent property) is [None] of [option json].  A number is an integer
      (the ids of the remote data); the script copies numbers and prints
      them, nothing else.
    - A plain object is the list of its own enumerable properties in
      insertion order, [obj]; a well-formed object has pairwise distinct
      keys ([is_object]).  [set_prop] defines an own data property, as
      object spread, [Object.fromEntries] and [JSON.parse] do.  The place
      JavaScript gives to array-index keys in the enumeration order is
      outside the model.
    - An assignment [o[k] = v] is [assign]: it walks the prototype chain,
      so that the key [__proto__] reaches the accessor inherited from
      [Object.prototype] and changes the prototype of [o] instead of
      defining a property.  An object under assignment therefore carries
      its prototype next to its own properties ([ordinary]).
    - The override document is taken at its declared TypeScript shape
      ([MeetupDataOverride]); a property value may be [null], the sentinel.
    - The file system is a finite map from paths (relative to the working
      directory) to file contents, and every write succeeds; [JSON.parse],
      [JSON.stringify] and [parseInt] are parameters of the development.
    - Console output is not part of the model. *)

From Stdlib Require Import ZArith String Ascii List DecimalString.
From Stdlib Require DecimalNat DecimalFacts.
From stdpp Require Import gmap strings.
Import ListNotations.
Open Scope string_scope.
Set Warnings "-register-all".

(** ** JavaScript values *)

Inductive json : Type :=
| JNull
| JBool (b : bool)
| JNum (n : Z)
| JStr (s : string)
| JArr (l : list json)
| JObj (o : list (string * json)).

(** Own enumerable properties, in insertion order. *)
Definition dict (V : Type) : Type := list (string * V).
Definition obj : Type := dict json.

Definition own_keys {V} (o : dict V) : list string := List.map fst o.

Definition is_object {V} (o : dict V) : Prop := List.NoDup (own_keys o).

(** [o[k]] on own properties; [None] is [undefined]. *)
Fixpoint get_prop {V} (k : string) (o : dict V) : option V :=
  match o with
  | [] => None
  | (k', v) :: rest => if String.eqb k k' then Some v else get_prop k rest
  end.

(** The own data property [k] of [o] is given the value [v]
    (CreateDataProperty, or the update of the property when it exists): an
    existing property keeps its place, a new one goes last. *)
Fixpoint set_prop {V} (k : string) (v : V) (o : dict V) : dict V :=
  match o with
  | [] => [(k, v)]
  | (k', v') :: rest =>
      if String.eqb k k' then (k', v) :: rest else (k', v') :: set_prop k v rest
  end.

(** CopyDataProperties: the spread [...src] into the object under
    construction [target]. *)
Definition copy_props {V} (src target : dict V) : dict V :=
  fold_left (fun acc kv => set_prop (fst kv) (snd kv) acc) src target.

(** The object literal [{ ...a, ...b }]. *)
Definition spread2 {V} (a b : dict V) : dict V := copy_props b (copy_props a []).

(** *** Assignment

    [o[k] = v] on an object made by an object literal.  For a key other
    than [__proto__] the walk up the prototype chain meets writable data
    properties only, and the assignment ends in an own data property of
    [o].  For [__proto__], when [o] has no own property of that name, the
    walk reaches the accessor of [Object.prototype] unless the chain is cut
    by a null prototype or passes an object with an own [__proto__]
    property (a value read by [JSON.parse] or built by a spread can have
    one).  The setter of the accessor replaces the prototype of [o] when
    [v] is an object or [null] and does nothing otherwise; in neither case
    does [o] get an own property. *)

Inductive prototype : Type :=
| Object_prototype
| Null_prototype
| Value_prototype (v : json).

Record ordinary : Type := { props : obj; proto : prototype }.

(** The object literal [{}]. *)
Definition empty_object : ordinary := {| props := []; proto := Object_prototype |}.

(** Does the lookup of [__proto__] that starts at prototype [p] arrive at
    the accessor of [Object.prototype]?  The prototype of a JSON value is
    [Object.prototype], or [Array.prototype] and then [Object.prototype]. *)
Definition reaches_accessor (p : prototype) : bool :=
  match p with
  | Object_prototype => true
  | Null_prototype => false
  | Value_prototype (JObj o) =>
      match get_prop "__proto__" o with Some _ => false | None => true end
  | Value_prototype _ => true
  end.

(** [set Object.prototype.__proto__]: called with [v] on an object whose
    prototype is [p]. *)
Definition proto_setter (v : json) (p : prototype) : prototype :=
  match v with
  | JObj _ | JArr _ => Value_prototype v
  | JNull => Null_prototype
  | JBool _ | JNum _ | JStr _ => p
  end.

Definition assign (k : string) (v : json) (o : ordinary) : ordinary :=
  if String.eqb k "__proto__" then
    match get_prop k (props o) with
    | Some _ => {| props := set_prop k v (props o); proto := proto o |}
    | None =>
        if reaches_accessor (proto o)
        then {| props := props o; proto := proto_setter v (proto o) |}
        else {| props := set_prop k v (props o); proto := proto o |}
    end
  else {| props := set_prop k v (props o); proto := proto o |}.

(** A run of assignments, one per entry, in order. *)
Definition assign_entries (l : list (string * json)) (o : ordinary) : ordinary :=
  fold_left (fun acc kv => assign (fst kv) (snd kv) acc) l o.

Definition Object_entries (o : obj) : list (string * json) := o.
Definition Object_fromEntries (l : list (string * json)) : obj := copy_props l [].
Definition Object_keys (o : obj) : list string := own_keys o.

(** [v !== null] *)
Definition not_null (v : json) : bool :=
  match v with JNull => false | _ => true end.

(** ToBoolean, on a possibly absent value. *)
Definition truthy (v : option json) : bool :=
  match v with
  | None | Some JNull => false
  | Some (JBool b) => b
  | Some (JNum n) => negb (Z.eqb n 0)
  | Some (JStr s) => negb (String.eqb s "")
  | Some (JArr _) | Some (JObj _) => true
  end.

(** ToString (template literals, property keys), for the values the script
    prints: strings, null, booleans, integers below 10^21 in magnitude,
    and plain objects and arrays of these. *)
Fixpoint ToString (v : json) : string :=
  match v with
  | JNull => "null"
  | JBool true => "true"
  | JBool false => "false"
  | JNum n => NilZero.string_of_int (Z.to_int n)
  | JStr s => s
  | JArr l =>
      String.concat ","
        (List.map (fun x => match x with JNull => "" | _ => ToString x end) l)
  | JObj _ => "[object Object]"
  end.

Definition ToString_opt (v : option json) : string :=
  match v with None => "undefined" | Some x => ToString x end.

(** [s | null] as a value. *)
Definition of_nullable (s : option string) : json :=
  match s with Some x => JStr x | None => JNull end.

Definition string_of_nat (n : nat) : string := NilZero.string_of_uint (Nat.to_uint n).

Definition newline : string := String (ascii_of_nat 10) EmptyString.

(** ** The remote shape (interfaces [Speaker] ... [Meetup])

    An optional or nullable member is an [option]; [None] stands for both
    [undefined] and [null], which the script never tells apart. *)

Module Speaker.
Record t : Type := { id : string; name : string; github_account : option string }.
End Speaker.

Module SessionData.
Record t : Type := { title : string; speakers : option Speaker.t }.
End SessionData.

Module Session.
Record t : Type := { id : Z; Session_id : option SessionData.t }.
End Session.

Module Logo.
Record t : Type := { filename_disk : string }.
End Logo.

Module SponsorData.
Record t : Type := { id : string; Name : string; Logo : option Logo.t }.
End SponsorData.

Module Sponsor.
Record t : Type := { id : Z; Sponsor_id : option SponsorData.t }.
End Sponsor.

Module Meetup.
Record t : Type := {
  id : Z;
  title : string;
  Date : string;
  Venue : string;
  Location : string;
  Time : string;
  sessions : list Session.t;
  sponsors : list Sponsor.t
}.
End Meetup.

(** ** The override document and the produced data *)

Module MeetupDataOverride.
Record t : Type := {
  meetup : option obj;
  speakers : option (dict obj);
  sponsor : option obj
}.
End MeetupDataOverride.

Module MeetupData.
Record t : Type := {
  meetup : obj;
  speakers : list obj;
  sponsor : option obj
}.
End MeetupData.

Module Config.
Record t : Type := { meetupId : string; speakerExtraFields : list string }.
End Config.

(** ** Exceptions

    A computation either returns or throws; [try_catch] is [try { } catch]. *)

Inductive exn : Type :=
| TypeError (msg : string)
| SyntaxError (msg : string)
| Error (msg : string).

Inductive result (A : Type) : Type :=
| Return (a : A)
| Throw (e : exn).
Arguments Return {A} a.
Arguments Throw {A} e.

Definition bind {A B} (m : result A) (f : A -> result B) : result B :=
  match m with
  | Return a => f a
  | Throw e => Throw e
  end.

Notation "'let*' x ':=' m 'in' k" := (bind m (fun x => k))
  (at level 10, x name, m at level 100, k at level 200).

Definition try_catch {A} (body : result A) (handler : exn -> result A) : result A :=
  match body with
  | Return a => Return a
  | Throw e => handler e
  end.

(** [xs.map(f)] for a callback that may throw. *)
Fixpoint map_result {A B} (f : A -> result B) (xs : list A) : result (list B) :=
  match xs with
  | [] => Return []
  | x :: rest =>
      let* y := f x in
      let* ys := map_result f rest in
      Return (y :: ys)
  end.

(** ** Extraction (the pure part of [fetchMeetupData]) *)

(** [a || null] on a nullable string: the empty string is falsy. *)
Definition or_null (a : option string) : option string :=
  match a with
  | Some s => if String.eqb s "" then None else Some s
  | None => None
  end.

Definition getGithubAvatar (username : option string) : option string :=
  match username with
  | None => None
  | Some u =>
      if String.eqb u "" then None
      else Some ("https://github.com/" ++ u ++ ".png")
  end.

Definition getSponsorLogoUrl (filename : string) : string :=
  "https://frontend.mu/assets/" ++ filename.

(** The filter predicate [session.Session_id && session.Session_id.speakers]. *)
Definition has_speaker (session : Session.t) : bool :=
  match Session.Session_id session with
  | Some sessionData =>
      match SessionData.speakers sessionData with Some _ => true | None => false end
  | None => false
  end.

(** The object literal built from a session's data and its nested speaker. *)
Definition speaker_entry (sessionData : SessionData.t) (speaker : Speaker.t) : obj :=
  [ ("name", JStr (Speaker.name speaker));
    ("talkTitle", JStr (SessionData.title sessionData));
    ("githubUsername", of_nullable (or_null (Speaker.github_account speaker)));
    ("githubAvatar",
      of_nullable (getGithubAvatar (or_null (Speaker.github_account speaker)))) ].

(** The [map] callback: reading a member of a null wrapper or of a null
    speaker throws. *)
Definition session_entry (session : Session.t) : result obj :=
  match Session.Session_id session with
  | None => Throw (TypeError "Cannot read properties of null (reading 'speakers')")
  | Some sessionData =>
      match SessionData.speakers sessionData with
      | None => Throw (TypeError "Cannot read properties of null (reading 'name')")
      | Some speaker => Return (speaker_entry sessionData speaker)
      end
  end.

Definition extractSpeakers (sessions : list Session.t) : result (list obj) :=
  map_result session_entry (List.filter has_speaker sessions).

(** [meetup.sponsors[0]] and the conditional that follows it. *)
Definition extractSponsor (sponsors : list Sponsor.t) : option obj :=
  match hd_error sponsors with
  | None => None
  | Some firstSponsor =>
      match Sponsor.Sponsor_id firstSponsor with
      | None => None
      | Some sd =>
          Some [ ("name", JStr (SponsorData.Name sd));
                 ("logo",
                   match SponsorData.Logo sd with
                   | Some logo => JStr (getSponsorLogoUrl (Logo.filename_disk logo))
                   | None => JNull
                   end) ]
      end
  end.

Definition extractMeetupData (meetup : Meetup.t) : result MeetupData.t :=
  let* speakers := extractSpeakers (Meetup.sessions meetup) in
  let sponsor := extractSponsor (Meetup.sponsors meetup) in
  Return
    {| MeetupData.meetup :=
         [ ("id", JNum (Meetup.id meetup));
           ("title", JStr (Meetup.title meetup));
           ("date", JStr (Meetup.Date meetup));
           ("venue", JStr (Meetup.Venue meetup));
           ("location", JStr (Meetup.Location meetup));
           ("time", JStr (Meetup.Time meetup)) ];
       MeetupData.speakers := speakers;
       MeetupData.sponsor := sponsor |}.

(** What the specification asks of the speaker list: sessions are visited in
    order, a session with a nested speaker yields its entry, any other
    session yields nothing. *)
Inductive Extracted : list Session.t -> list obj -> Prop :=
| Extracted_nil : Extracted [] []
| Extracted_no_wrapper session rest entries :
    Session.Session_id session = None ->
    Extracted rest entries ->
    Extracted (session :: rest) entries
| Extracted_no_speaker session sessionData rest entries :
    Session.Session_id session = Some sessionData ->
    SessionData.speakers sessionData = None ->
    Extracted rest entries ->
    Extracted (session :: rest) entries
| Extracted_speaker session sessionData speaker rest entries :
    Session.Session_id session = Some sessionData ->
    SessionData.speakers sessionData = Some speaker ->
    Extracted rest entries ->
    Extracted (session :: rest) (speaker_entry sessionData speaker :: entries).

(** ** The merge engine ([applyOverrides]) *)

Definition removeNulls (o : obj) : obj :=
  Object_fromEntries (List.filter (fun kv => not_null (snd kv)) (Object_entries o)).

(** [key === 'jobtitle' ? 'jobTitle' : key] *)
Definition normalizedKey (key : string) : string :=
  if String.eqb key "jobtitle" then "jobTitle" else key.

(** The loop of [normalizeFieldNames] assigns each [value] under its
    normalized key; the function returns the object, of which the rest of
    the merge reads the own properties. *)
Definition normalizeFieldNames (o : obj) : obj :=
  props
    (fold_left
       (fun normalized kv => assign (normalizedKey (fst kv)) (snd kv) normalized)
       (Object_entries o) empty_object).

(** An entry of an override as the loop stores it. *)
Definition rename_entry (kv : string * json) : string * json :=
  (normalizedKey (fst kv), snd kv).

(** [Object.keys(validOverrides).length > 0] *)
Definition has_keys (o : obj) : bool :=
  match Object_keys o with [] => false | _ :: _ => true end.

(** The meetup and sponsor sections: null-filter, then spread over the target. *)
Definition apply_section (target override : obj) : obj :=
  let validOverrides := removeNulls override in
  if has_keys validOverrides then spread2 target validOverrides else target.

(** The callback of [data.speakers.map]; [speaker.name] is used as a
    property key of the speakers mapping. *)
Definition apply_speaker (overrides : dict obj) (speaker : obj) : obj :=
  match get_prop (ToString_opt (get_prop "name" speaker)) overrides with
  | Some override =>
      let normalizedOverride := normalizeFieldNames override in
      let validOverrides := removeNulls normalizedOverride in
      if has_keys validOverrides then spread2 speaker validOverrides else speaker
  | None => speaker
  end.

Definition applyOverrides (data : MeetupData.t)
    (overrides : option MeetupDataOverride.t) : MeetupData.t :=
  match overrides with
  | None => data
  | Some ov =>
      let meetup1 :=
        match MeetupDataOverride.meetup ov with
        | Some o => apply_section (MeetupData.meetup data) o
        | None => MeetupData.meetup data
        end in
      let speakers1 :=
        match MeetupDataOverride.speakers ov with
        | Some m => List.map (apply_speaker m) (MeetupData.speakers data)
        | None => MeetupData.speakers data
        end in
      let sponsor1 :=
        match MeetupDataOverride.sponsor ov, MeetupData.sponsor data with
        | Some o, Some s => Some (apply_section s o)
        | _, _ => MeetupData.sponsor data
        end in
      {| MeetupData.meetup := meetup1;
         MeetupData.speakers := speakers1;
         MeetupData.sponsor := sponsor1 |}
  end.

(** ** The file system and the artifacts *)

Abbreviation FS := (gmap string string).

Definition overridePath : string := "meetup-data.override.json".
Definition outputPath : string := "meetup-data.json".
Definition snippetPath : string := "pages/generated/speakers-slides.txt".

Definition existsSync (path : string) (fs : FS) : bool :=
  match fs !! path with Some _ => true | None => false end.

Definition readFileSync (path : string) (fs : FS) : result string :=
  match fs !! path with
  | Some content => Return content
  | None => Throw (Error "ENOENT: no such file or directory")
  end.

Definition writeFileSync (path content : string) (fs : FS) : FS :=
  <[path := content]> fs.

(** [generateSpeakerSlide]: the front matter lines, empty ones dropped. *)
Definition generateSpeakerSlide (speaker : obj) : string :=
  let field (label key : string) : string :=
    if truthy (get_prop key speaker)
    then label ++ ToString_opt (get_prop key speaker) else "" in
  let frontmatter :=
    List.filter (fun line => negb (String.eqb line ""))
      [ "layout: speaker-intro";
        field "image: " "githubAvatar";
        "name: " ++ ToString_opt (get_prop "name" speaker);
        "talkTitle: " ++ ToString_opt (get_prop "talkTitle" speaker);
        field "github: " "githubUsername";
        field "company: " "company";
        field "jobTitle: " "jobTitle" ] in
  "---" ++ newline ++ String.concat newline frontmatter ++ newline ++ "---" ++ newline.

Definition slidePath (index : nat) : string :=
  "pages/generated/speakers/speaker-" ++ string_of_nat (index + 1) ++ ".md".

(** The [forEach] of [generateSpeakerSlides], from position [index] on. *)
Fixpoint write_slides (index : nat) (speakers : list obj) (fs : FS) : FS :=
  match speakers with
  | [] => fs
  | speaker :: rest =>
      write_slides (S index) rest
        (writeFileSync (slidePath index) (generateSpeakerSlide speaker) fs)
  end.

Definition slideReference (index : nat) : string :=
  "---" ++ newline ++ "src: ./" ++ slidePath index ++ newline
  ++ "hide: false" ++ newline ++ "---".

Definition generateSpeakerSlides (speakers : list obj) (fs : FS) : FS :=
  let fs1 := write_slides 0 speakers fs in
  let slidesSnippet :=
    String.concat (newline ++ newline)
      (List.map slideReference (seq 0 (length speakers))) in
  writeFileSync snippetPath slidesSnippet fs1.

Section Platform.

(** [JSON.parse] at the type the script gives its result: a document, or
    [null]; it throws on text that is not JSON. *)
Variable JSON_parse : string -> result (option MeetupDataOverride.t).

(** [JSON.stringify(value, null, 2)]. *)
Variable JSON_stringify : json -> string.

(** [parseInt]; [None] is [NaN]. *)
Variable parseInt : string -> option Z.

(** The scaffold object of [createOverrideTemplate]: [speakerTemplate] after
    the [forEach], and the template with its [reduce] over the names.  The
    spread and [JSON.stringify] read own properties only. *)
Definition speakerTemplate (extraFields : list string) : ordinary :=
  fold_left (fun template field => assign field JNull template) extraFields empty_object.

Definition overrideTemplate (speakers extraFields : list string) : json :=
  JObj
    [ ("meetup", JObj []);
      ("speakers",
        JObj (props
                (fold_left
                   (fun acc name =>
                      assign name
                        (JObj (copy_props (props (speakerTemplate extraFields)) [])) acc)
                   speakers empty_object)));
      ("sponsor", JObj []) ].

Definition createOverrideTemplate (speakers extraFields : list string) (fs : FS) : FS :=
  if existsSync overridePath fs then fs
  else writeFileSync overridePath
         (JSON_stringify (overrideTemplate speakers extraFields)) fs.

Definition readOverrides (fs : FS) : result (option MeetupDataOverride.t) :=
  if negb (existsSync overridePath fs) then Return None
  else
    try_catch
      (let* content := readFileSync overridePath fs in
       let* overrides := JSON_parse content in
       Return overrides)
      (fun _ => Return None).

Definition meetupData_json (data : MeetupData.t) : json :=
  JObj
    [ ("meetup", JObj (MeetupData.meetup data));
      ("speakers", JArr (List.map JObj (MeetupData.speakers data)));
      ("sponsor",
        match MeetupData.sponsor data with Some s => JObj s | None => JNull end) ].

(** [speakers.map(s => s.name)] *)
Definition speaker_names (speakers : list obj) : list string :=
  List.map (fun s => ToString_opt (get_prop "name" s)) speakers.

(** [m.id === parseInt(config.meetupId)] *)
Definition has_configured_id (config : Config.t) (m : Meetup.t) : bool :=
  match parseInt (Config.meetupId config) with
  | Some n => Z.eqb (Meetup.id m) n
  | None => false
  end.

(** [fetchMeetupData], from the fetched meetup collection on: the run
    returns the produced data and the file system it leaves. *)
Definition fetchMeetupData (config : Config.t) (meetupsData : list Meetup.t)
    (fs : FS) : result (MeetupData.t * FS) :=
  match find (has_configured_id config) meetupsData with
  | None =>
      Throw (Error ("Meetup with id " ++ Config.meetupId config ++ " not found"))
  | Some meetup =>
      let* meetupData := extractMeetupData meetup in
      let fs1 :=
        createOverrideTemplate (speaker_names (MeetupData.speakers meetupData))
          (Config.speakerExtraFields config) fs in
      let* overrides := readOverrides fs1 in
      let merged := applyOverrides meetupData overrides in
      let fs2 := writeFileSync outputPath (JSON_stringify (meetupData_json merged)) fs1 in
      let fs3 := generateSpeakerSlides (MeetupData.speakers merged) fs2 in
      Return (merged, fs3)
  end.

End Platform.

(** ** Vocabulary of the statements *)

(** Every property of the object is [null]. *)
Definition all_null (o : obj) : Prop := Forall (fun kv => snd kv = JNull) o.

(** An override document that holds nothing but null sentinels. *)
Definition null_only (ov : MeetupDataOverride.t) : Prop :=
  (forall o, MeetupDataOverride.meetup ov = Some o -> all_null o)
  /\ (forall m, MeetupDataOverride.speakers ov = Some m ->
                Forall (fun entry => all_null (snd entry)) m)
  /\ (forall o, MeetupDataOverride.sponsor ov = Some o -> all_null o).

Definition well_formed_data (data : MeetupData.t) : Prop :=
  is_object (MeetupData.meetup data)
  /\ Forall is_object (MeetupData.speakers data)
  /\ (forall s, MeetupData.sponsor data = Some s -> is_object s).

Definition well_formed_overrides (ov : MeetupDataOverride.t) : Prop :=
  (forall o, MeetupDataOverride.meetup ov = Some o -> is_object o)
  /\ (forall m, MeetupDataOverride.speakers ov = Some m ->
                Forall (fun entry => is_object (snd entry)) m)
  /\ (forall o, MeetupDataOverride.sponsor ov = Some o -> is_object o).

(** [result] is [target] with [override] laid over it (the meetup and the
    sponsor section): a non-null field of the override is the value of the
    field of that name, and a field for which the override holds no value,
    or null, is as in [target]. *)
Definition overrides_win (target override result : obj) : Prop :=
  (forall k v, get_prop k override = Some v -> v <> JNull ->
               get_prop k result = Some v)
  /\ (forall k,
        (forall v, get_prop k override = Some v -> v = JNull) ->
        get_prop k result = get_prop k target).

(** The entry [(k, v)] of a speaker override is the last one that
    corresponds to its field: no entry after it has a key with the same
    normalized key.  With distinct keys, an entry is followed by another
    entry for its field only when the two are the two spellings of the job
    title. *)
Definition decisive (override : obj) (k : string) (v : json) : Prop :=
  exists before after,
    override = (before ++ (k, v) :: after)%list
    /\ forall k', In k' (own_keys after) -> normalizedKey k' <> normalizedKey k.

(** [merged] is [speaker] with the speaker override laid over it: a non-null
    decisive entry is the value of the field it corresponds to ([jobtitle]
    standing for [jobTitle]), the key [__proto__] aside; and a field to
    which only null entries correspond, or none, is as in [speaker]. *)
Definition speaker_overrides_win (speaker override merged : obj) : Prop :=
  (forall k v, decisive override k v -> v <> JNull -> k <> "__proto__" ->
               get_prop (normalizedKey k) merged = Some v)
  /\ (forall k',
        (forall k v, In (k, v) override -> normalizedKey k = k' -> v = JNull) ->
        get_prop k' merged = get_prop k' speaker).

(** The override that [applyOverrides] looks up for a speaker. *)
Definition override_of (ov : MeetupDataOverride.t) (speaker : obj) : option obj :=
  match MeetupDataOverride.speakers ov with
  | Some m => get_prop (ToString_opt (get_prop "name" speaker)) m
  | None => None
  end.

(** The avatar follows the username: both null, or the avatar is the
    template applied to the username. *)
Definition avatar_consistent (speaker : obj) : Prop :=
  match get_prop "githubUsername" speaker, get_prop "githubAvatar" speaker with
  | Some JNull, Some JNull => True
  | Some (JStr u), Some (JStr a) => a = "https://github.com/" ++ u ++ ".png"
  | _, _ => False
  end.

(** No speaker override gives [githubUsername] or [githubAvatar] a value
    other than null. *)
Definition keeps_github_fields (ov : MeetupDataOverride.t) : Prop :=
  forall m name o k v,
    MeetupDataOverride.speakers ov = Some m ->
    In (name, o) m -> In (k, v) o ->
    k = "githubUsername" \/ k = "githubAvatar" -> v = JNull.

(** ** Fixtures *)

Module Fixture.

(** The speaker of the specification's merge examples. *)
Definition speakerA : obj := [ ("name", JStr "A"); ("company", JNull) ].

Definition data : MeetupData.t :=
  {| MeetupData.meetup :=
       [ ("id", JNum 42); ("title", JStr "Monthly meetup"); ("date", JStr "2025-01-25");
         ("venue", JStr "Hall"); ("location", JStr "Port Louis"); ("time", JStr "10:00") ];
     MeetupData.speakers := [ speakerA ];
     MeetupData.sponsor := None |}.

Definition sponsored : MeetupData.t :=
  {| MeetupData.meetup := MeetupData.meetup data;
     MeetupData.speakers := [ speakerA ];
     MeetupData.sponsor := Some [ ("name", JStr "Acme"); ("logo", JNull) ] |}.

(** An override document with a speakers section only. *)
Definition for_speakers (m : dict obj) : MeetupDataOverride.t :=
  {| MeetupDataOverride.meetup := None;
     MeetupDataOverride.speakers := Some m;
     MeetupDataOverride.sponsor := None |}.

(** [{"A": {company: "Acme"}}] *)
Definition company_override : MeetupDataOverride.t :=
  for_speakers [ ("A", [ ("company", JStr "Acme") ]) ].

(** [{"A": {jobtitle: "Eng"}}] *)
Definition legacy_override : MeetupDataOverride.t :=
  for_speakers [ ("A", [ ("jobtitle", JStr "Eng") ]) ].

(** [{"A": {jobTitle: "Staff Engineer", jobtitle: null}}] *)
Definition clash_null : obj := [ ("jobTitle", JStr "Staff Engineer"); ("jobtitle", JNull) ].

(** [{"A": {jobTitle: "Staff Engineer", jobtitle: "Eng"}}] *)
Definition clash_both : obj := [ ("jobTitle", JStr "Staff Engineer"); ("jobtitle", JStr "Eng") ].

(** [{"A": {jobtitle: "Eng", jobTitle: "Staff Engineer"}}] *)
Definition legacy_first : obj := [ ("jobtitle", JStr "Eng"); ("jobTitle", JStr "Staff Engineer") ].

(** A document whose every field is the null sentinel. *)
Definition nulls : MeetupDataOverride.t :=
  {| MeetupDataOverride.meetup := Some [ ("title", JNull) ];
     MeetupDataOverride.speakers :=
       Some [ ("A", [ ("company", JNull); ("jobtitle", JNull); ("jobTitle", JNull) ]) ];
     MeetupDataOverride.sponsor := Some [ ("name", JNull); ("logo", JNull) ] |}.

(** A document that names a sponsor. *)
Definition sponsor_override : MeetupDataOverride.t :=
  {| MeetupDataOverride.meetup := Some [ ("jobtitle", JStr "Host"); ("title", JNull) ];
     MeetupDataOverride.speakers := None;
     MeetupDataOverride.sponsor := Some [ ("name", JStr "Globex") ] |}.

(** The specification's end-to-end meetup: Jane with a GitHub handle, a
    session without speaker, and a sponsor without logo; the third session's
    speaker has an empty [github_account]. *)
Definition jane : Speaker.t :=
  {| Speaker.id := "s1"; Speaker.name := "Jane"; Speaker.github_account := Some "janedev" |}.

Definition bob : Speaker.t :=
  {| Speaker.id := "s2"; Speaker.name := "Bob"; Speaker.github_account := Some "" |}.

Definition session_of (n : Z) (title : string) (speaker : option Speaker.t) : Session.t :=
  {| Session.id := n;
     Session.Session_id :=
       Some {| SessionData.title := title; SessionData.speakers := speaker |} |}.

Definition meetup42 : Meetup.t :=
  {| Meetup.id := 42; Meetup.title := "Monthly meetup"; Meetup.Date := "2025-01-25";
     Meetup.Venue := "Hall"; Meetup.Location := "Port Louis"; Meetup.Time := "10:00";
     Meetup.sessions :=
       [ session_of 1 "Grids" (Some jane); session_of 2 "Break" None;
         session_of 3 "Nesting" (Some bob) ];
     Meetup.sponsors :=
       [ {| Sponsor.id := 7;
            Sponsor.Sponsor_id :=
              Some {| SponsorData.id := "acme"; SponsorData.Name := "Acme";
                      SponsorData.Logo := None |} |} ] |}.

(** [{"Bob": {githubUsername: "bobcodes"}}] *)
Definition username_override : MeetupDataOverride.t :=
  for_speakers [ ("Bob", [ ("githubUsername", JStr "bobcodes") ]) ].

(** Stand-ins for the platform functions: a parser that knows one
    document and rejects every other text, a printer, and [parseInt] on the
    fixture's id. *)
Definition parse (text : string) : result (option MeetupDataOverride.t) :=
  if String.eqb text "company" then Return (Some company_override)
  else Throw (SyntaxError "Unexpected token").

Definition print (v : json) : string :=
  match v with
  | JObj o => "{" ++ String.concat "," (own_keys o) ++ "}"
  | _ => "?"
  end.

Definition parse_id (text : string) : option Z :=
  if String.eqb text "42" then Some 42%Z else None.

Definition config : Config.t :=
  {| Config.meetupId := "42"; Config.speakerExtraFields := [ "company"; "jobtitle" ] |}.

(** A parser that reads every text as the document of null sentinels. *)
Definition parse_nulls (text : string) : result (option MeetupDataOverride.t) :=
  Return (Some nulls).

(** A working directory whose override file has a trailing comma. *)
Definition broken_fs : gmap string string :=
  {[ "meetup-data.override.json" := "{ meetup: {}, }" ]}.

End Fixture.

(** ** The sponsor slide ([components/Sponsor.vue])

    [String.prototype.replace] with a string pattern replaces the first
    occurrence; the replacement used below holds no [$] pattern. *)

Fixpoint drop_chars (n : nat) (s : string) : string :=
  match n, s with
  | O, _ => s
  | S n', String _ rest => drop_chars n' rest
  | S _, EmptyString => EmptyString
  end.

Fixpoint replace_first (pattern replacement s : string) : string :=
  if String.prefix pattern s
  then replacement ++ drop_chars (String.length pattern) s
  else match s with
       | EmptyString => EmptyString
       | String c rest => String c (replace_first pattern replacement rest)
       end.

(** The computed [sponsorLogo], on the sponsor read from [meetup-data.json]:
    [None] is [undefined]; calling [startsWith] on a logo that is neither
    null nor a string throws. *)
Definition sponsorLogo (sponsor : option obj) : result (option json) :=
  match sponsor with
  | None => Return None
  | Some s =>
      match get_prop "logo" s with
      | None => Return None
      | Some JNull => Return (Some JNull)
      | Some (JStr logo) =>
          if String.prefix "https://frontend.mu/assets/" logo
          then Return (Some (JStr (replace_first "https://frontend.mu/assets/"
                                     "https://directus.coders.mu/assets/" logo)))
          else Return (Some (JStr logo))
      | Some _ =>
          Throw (TypeError "sponsor.value.logo.startsWith is not a function")
      end
  end.

(** ** The configuration reader ([readConfig])

    A string is read as its sequence of code units, each below 256; on
    these the class [\s] of regular expressions and the characters [trim]
    removes are the same seven. *)

Definition is_space (c : ascii) : bool :=
  match nat_of_ascii c with
  | 9 | 10 | 11 | 12 | 13 | 32 | 160 => true
  | _ => false
  end.

Definition is_digit (c : ascii) : bool :=
  (Nat.leb 48 (nat_of_ascii c) && Nat.leb (nat_of_ascii c) 57)%bool.

(** The class of the two quote characters, single and double. *)
Definition is_quote (c : ascii) : bool :=
  (Ascii.eqb c "'" || Ascii.eqb c (ascii_of_nat 34))%bool.

(** The longest prefix of characters in a class, and what follows it. *)
Fixpoint span (p : ascii -> bool) (s : string) : string * string :=
  match s with
  | EmptyString => (EmptyString, EmptyString)
  | String c rest =>
      if p c then let (taken, left) := span p rest in (String c taken, left)
      else (EmptyString, s)
  end.

(** The expression for the id ([id:], white space, a quote, one or more
    digits, a quote) tried at the start of [s]: the digits it captures. *)
Definition match_id_at (s : string) : option string :=
  if String.prefix "id:" s then
    match snd (span is_space (drop_chars 3 s)) with
    | String q rest =>
        if is_quote q then
          match span is_digit rest with
          | (EmptyString, _) => None
          | (digits, String q' _) => if is_quote q' then Some digits else None
          | (_, EmptyString) => None
          end
        else None
    | EmptyString => None
    end
  else None.

(** The characters before the first [c], if there is one. *)
Fixpoint up_to (c : ascii) (s : string) : option string :=
  match s with
  | EmptyString => None
  | String d rest =>
      if Ascii.eqb d c then Some EmptyString
      else option_map (String d) (up_to c rest)
  end.

(** [/extraFields:\s*\[(.*?)\]/s] tried at the start of [s]. *)
Definition match_extraFields_at (s : string) : option string :=
  if String.prefix "extraFields:" s then
    match snd (span is_space (drop_chars 12 s)) with
    | String b rest => if Ascii.eqb b "[" then up_to "]" rest else None
    | EmptyString => None
    end
  else None.

(** [content.match(re)]: the leftmost position where the expression matches. *)
Fixpoint first_match {A} (at_start : string -> option A) (s : string) : option A :=
  match at_start s with
  | Some x => Some x
  | None =>
      match s with
      | EmptyString => None
      | String _ rest => first_match at_start rest
      end
  end.

(** [s.split(',')] *)
Fixpoint split_comma (s : string) : list string :=
  match s with
  | EmptyString => [EmptyString]
  | String c rest =>
      if Ascii.eqb c "," then EmptyString :: split_comma rest
      else match split_comma rest with
           | piece :: pieces => String c piece :: pieces
           | [] => [String c EmptyString]
           end
  end.

Fixpoint trim_end (s : string) : string :=
  match s with
  | EmptyString => EmptyString
  | String c rest =>
      match trim_end rest with
      | EmptyString => if is_space c then EmptyString else String c EmptyString
      | kept => String c kept
      end
  end.

(** [s.trim()] *)
Definition trim (s : string) : string := trim_end (snd (span is_space s)).

(** [s.replace(re, '')] with the global expression for the quote class. *)
Fixpoint strip_quotes (s : string) : string :=
  match s with
  | EmptyString => EmptyString
  | String c rest => if is_quote c then strip_quotes rest else String c (strip_quotes rest)
  end.

(** The fields of the captured list text. *)
Definition parse_extraFields (fieldsStr : string) : list string :=
  List.filter (fun s => negb (Nat.eqb (String.length s) 0))
    (List.map (fun s => strip_quotes (trim s)) (split_comma fieldsStr)).

Definition configPath : string := "slides.config.ts".

Definition readConfig (fs : FS) : result Config.t :=
  try_catch
    (let* configContent := readFileSync configPath fs in
     match first_match match_id_at configContent with
     | None => Throw (Error "Could not find meetup id in slides.config.ts")
     | Some meetupId =>
         let speakerExtraFields :=
           match first_match match_extraFields_at configContent with
           | Some fieldsStr => parse_extraFields fieldsStr
           | None => []
           end in
         Return {| Config.meetupId := meetupId;
                   Config.speakerExtraFields := speakerExtraFields |}
     end)
    (fun error => Throw error).

(** ** The earlier script (without overrides and slides)

    Its [fetchMeetupData] finds the meetup, extracts the same data and
    writes it to [meetup-data.json]. *)

Section Legacy.

Variable JSON_stringify : json -> string.
Variable parseInt : string -> option Z.

Definition legacy_fetchMeetupData (meetupId : string) (meetupsData : list Meetup.t)
    (fs : FS) : result (MeetupData.t * FS) :=
  match
    find (fun m => match parseInt meetupId with
                   | Some n => Z.eqb (Meetup.id m) n
                   | None => false
                   end) meetupsData
  with
  | None => Throw (Error ("Meetup with id " ++ meetupId ++ " not found"))
  | Some meetup =>
      let* meetupData := extractMeetupData meetup in
      Return (meetupData,
              writeFileSync outputPath (JSON_stringify (meetupData_json meetupData)) fs)
  end.

End Legacy.

(** ** Vocabulary for the configuration reader *)

(** Every character of the string is in the class. *)
Fixpoint all_chars (p : ascii -> bool) (s : string) : bool :=
  match s with
  | EmptyString => true
  | String c rest => (p c && all_chars p rest)%bool
  end.

(** A character that ends a field or the list: a quote, a comma, a closing
    bracket. *)
Definition is_delimiter (c : ascii) : bool :=
  (is_quote c || Ascii.eqb c "," || Ascii.eqb c "]")%bool.

(** A field name that needs no care: not empty, no white space, no delimiter. *)
Definition plain_name (field : string) : Prop :=
  field <> EmptyString
  /\ all_chars (fun c => negb (is_space c || is_delimiter c)) field = true.

(** A configuration text in the usual form. *)
Definition config_text (meetupId : string) (fields : list string) : string :=
  "id: '" ++ meetupId ++ "', extraFields: ["
  ++ String.concat ", " (List.map (fun field => "'" ++ field ++ "'") fields) ++ "]".

(** The override file is present and what [JSON.parse] makes of it has no
    effect: it is rejected, or it is null, or it holds only null sentinels. *)
Definition override_file_without_effect
    (JSON_parse : string -> result (option MeetupDataOverride.t)) (fs : FS) : Prop :=
  exists content,
    fs !! overridePath = Some content
    /\ match JSON_parse content with
       | Throw _ => True
       | Return None => True
       | Return (Some ov) => null_only ov
       end.

(** * Properties *)

(** ** Property lookups *)

Section Lookup.
Context {V : Type}.
Local Open Scope list_scope.
Implicit Types (o src target : dict V) (k : string) (v : V).

Lemma get_set_same k v o : get_prop k (set_prop k v o) = Some v.
Proof.
  induction o as [|[k' v'] rest IH]; simpl.
  - now rewrite String.eqb_refl.
  - destruct (String.eqb_spec k k') as [->|Hne]; simpl.
    + now rewrite String.eqb_refl.
    + apply String.eqb_neq in Hne. now rewrite Hne.
Qed.

Lemma get_set_other k k' v o :
  k <> k' -> get_prop k (set_prop k' v o) = get_prop k o.
Proof.
  intros Hne. induction o as [|[k0 v0] rest IH]; simpl.
  - apply String.eqb_neq in Hne. now rewrite Hne.
  - destruct (String.eqb_spec k' k0) as [->|Hne0]; simpl.
    + apply String.eqb_neq in Hne. now rewrite Hne.
    + now rewrite IH.
Qed.

Lemma get_prop_None k o : get_prop k o = None <-> ~ In k (own_keys o).
Proof.
  induction o as [|[k' v'] rest IH]; simpl.
  - tauto.
  - destruct (String.eqb_spec k k') as [->|Hne].
    + split; [discriminate | intros H; exfalso; apply H; now left].
    + rewrite IH. split; [intros H [E|I]; [congruence | tauto] | tauto].
Qed.

Lemma get_prop_In k v o : get_prop k o = Some v -> In (k, v) o.
Proof.
  induction o as [|[k' v'] rest IH]; simpl; [discriminate|].
  destruct (String.eqb_spec k k') as [->|Hne].
  - intros [= ->]. now left.
  - intros H. right. now apply IH.
Qed.

Lemma In_get_prop k v o : is_object o -> In (k, v) o -> get_prop k o = Some v.
Proof.
  unfold is_object. induction o as [|[k' v'] rest IH]; simpl; [tauto|].
  intros Hnd [E|I]; inversion Hnd as [|? ? Hnotin Hrest]; subst.
  - injection E as -> ->. now rewrite String.eqb_refl.
  - destruct (String.eqb_spec k k') as [->|Hne].
    + exfalso. apply Hnotin. change k' with (fst (k', v)). now apply in_map.
    + now apply IH.
Qed.

Lemma set_prop_absent k v o :
  ~ In k (own_keys o) -> set_prop k v o = o ++ [(k, v)].
Proof.
  induction o as [|[k' v'] rest IH]; simpl; [reflexivity|].
  intros Hnotin. destruct (String.eqb_spec k k') as [->|Hne].
  - exfalso. apply Hnotin. now left.
  - f_equal. apply IH. tauto.
Qed.

Lemma own_keys_set_present k v o :
  In k (own_keys o) -> own_keys (set_prop k v o) = own_keys o.
Proof.
  induction o as [|[k' v'] rest IH]; simpl; [tauto|].
  intros Hin. destruct (String.eqb_spec k k') as [->|Hne]; simpl.
  - reflexivity.
  - f_equal. apply IH. destruct Hin; [congruence | assumption].
Qed.

Lemma own_keys_app o1 o2 : own_keys (o1 ++ o2) = own_keys o1 ++ own_keys o2.
Proof. unfold own_keys. apply map_app. Qed.

Lemma In_own_keys_set k k' v o :
  In k (own_keys (set_prop k' v o)) <-> k = k' \/ In k (own_keys o).
Proof.
  destruct (in_dec String.string_dec k' (own_keys o)) as [Hin|Hnotin].
  - rewrite own_keys_set_present by assumption.
    split; [tauto | intros [->|H]; assumption].
  - rewrite set_prop_absent by assumption.
    rewrite own_keys_app, in_app_iff. simpl. intuition congruence.
Qed.

Lemma set_prop_is_object k v o : is_object o -> is_object (set_prop k v o).
Proof.
  unfold is_object. intros Hnd.
  destruct (in_dec String.string_dec k (own_keys o)) as [Hin|Hnotin].
  - now rewrite own_keys_set_present.
  - rewrite set_prop_absent, own_keys_app by assumption. simpl.
    apply List.NoDup_app; repeat split; try assumption.
    + constructor; [simpl; tauto | constructor].
    + intros x Hx [<-|[]]. contradiction.
Qed.

Lemma copy_props_is_object src target :
  is_object target -> is_object (copy_props src target).
Proof.
  unfold copy_props. revert target.
  induction src as [|[k v] rest IH]; simpl; intros target Ht; [assumption|].
  apply IH. now apply set_prop_is_object.
Qed.

Lemma In_own_keys_copy_props k src target :
  In k (own_keys (copy_props src target))
  <-> In k (own_keys src) \/ In k (own_keys target).
Proof.
  unfold copy_props. revert target.
  induction src as [|[k' v] rest IH]; simpl; intros target; [tauto|].
  rewrite IH, In_own_keys_set. intuition congruence.
Qed.

Lemma get_prop_app k o1 o2 :
  get_prop k (o1 ++ o2) =
  match get_prop k o1 with Some x => Some x | None => get_prop k o2 end.
Proof.
  induction o1 as [|[a b] o1 IH]; simpl; [reflexivity|].
  destruct (String.eqb k a); [reflexivity | apply IH].
Qed.

(** The last assignment to a key wins; a key never assigned keeps the
    target's value. *)
Lemma get_copy_props k src target :
  get_prop k (copy_props src target) =
  match get_prop k (rev src) with
  | Some v => Some v
  | None => get_prop k target
  end.
Proof.
  unfold copy_props. revert target.
  induction src as [|[k' v] rest IH]; simpl; intros target; [reflexivity|].
  rewrite IH, get_prop_app. clear IH. destruct (get_prop k (rev rest)); [reflexivity|]. simpl.
  destruct (String.eqb_spec k k') as [->|Hne].
  - apply get_set_same.
  - now apply get_set_other.
Qed.

Lemma get_prop_rev k o : is_object o -> get_prop k (rev o) = get_prop k o.
Proof.
  intros Hobj. destruct (get_prop k o) as [v|] eqn:E.
  - apply In_get_prop.
    + unfold is_object, own_keys. rewrite map_rev. now apply List.NoDup_rev.
    + apply in_rev. rewrite rev_involutive. now apply get_prop_In.
  - apply get_prop_None. apply get_prop_None in E.
    unfold own_keys in *. rewrite map_rev, <- in_rev. assumption.
Qed.

Lemma copy_props_fresh src target :
  is_object (target ++ src) -> copy_props src target = target ++ src.
Proof.
  unfold copy_props. revert target.
  induction src as [|[k v] rest IH]; simpl; intros target Hobj.
  - now rewrite app_nil_r.
  - assert (Hnotin : ~ In k (own_keys target)).
    { unfold is_object in Hobj. rewrite own_keys_app in Hobj. simpl in Hobj.
      apply List.NoDup_remove_2 in Hobj. rewrite in_app_iff in Hobj. tauto. }
    rewrite set_prop_absent by assumption.
    rewrite IH; rewrite <- app_assoc; simpl; [reflexivity | assumption].
Qed.

Lemma copy_props_nil o : is_object o -> copy_props o [] = o.
Proof. intros Hobj. now apply (copy_props_fresh o []). Qed.

Lemma get_prop_filter (p : V -> bool) k o :
  is_object o ->
  get_prop k (List.filter (fun kv => p (snd kv)) o) =
  match get_prop k o with
  | Some v => if p v then Some v else None
  | None => None
  end.
Proof.
  unfold is_object. induction o as [|[k' v'] rest IH]; simpl; [reflexivity|].
  intros Hnd. inversion Hnd as [|? ? Hnotin Hrest]; subst.
  destruct (String.eqb_spec k k') as [->|Hne].
  - destruct (p v') eqn:Ep; simpl.
    + now rewrite String.eqb_refl.
    + apply get_prop_None. intros Hin. apply Hnotin.
      unfold own_keys in *. apply in_map_iff in Hin as [[a b] [Ha Hb]].
      apply filter_In in Hb as [Hb _]. simpl in Ha. subst a.
      change k' with (fst (k', b)). now apply in_map.
  - destruct (p v'); simpl.
    + apply String.eqb_neq in Hne. rewrite Hne. now apply IH.
    + now apply IH.
Qed.

Lemma filter_is_object (p : string * V -> bool) o :
  is_object o -> is_object (List.filter p o).
Proof.
  unfold is_object. induction o as [|kv rest IH]; simpl; [trivial|].
  intros Hnd. inversion Hnd as [|? ? Hnotin Hrest]; subst.
  destruct (p kv); simpl; [|now apply IH].
  constructor; [|now apply IH].
  intros Hin. apply Hnotin. unfold own_keys in *.
  apply in_map_iff in Hin as [x [Hx Hf]]. apply filter_In in Hf as [Hf _].
  rewrite <- Hx. now apply in_map.
Qed.

End Lookup.

(** ** The helpers of the merge engine *)

Lemma In_set_prop {V} (kv : string * V) k v (o : dict V) :
  In kv (set_prop k v o) -> kv = (k, v) \/ In kv o.
Proof.
  induction o as [|[k' v'] rest IH]; simpl.
  - intros [<-|[]]. now left.
  - destruct (String.eqb_spec k k') as [->|Hne]; simpl.
    + intros [<-|H]; [now left | right; now right].
    + intros [<-|H]; [right; now left|].
      destruct (IH H) as [->|H']; [now left | right; now right].
Qed.

Lemma In_copy_props {V} (kv : string * V) (src target : dict V) :
  In kv (copy_props src target) -> In kv src \/ In kv target.
Proof.
  unfold copy_props. revert target.
  induction src as [|[k v] rest IH]; simpl; intros target H; [now right|].
  destruct (IH _ H) as [H'|H']; [left; now right|].
  destruct (In_set_prop _ _ _ _ H') as [->|H'']; [left; now left | now right].
Qed.

Section Merge.
Local Open Scope list_scope.
Local Arguments String.eqb : simpl never.
Implicit Types (o target override : obj) (k : string) (v : json).

(** *** Assignment *)

Lemma assign_plain k v b :
  k <> "__proto__" ->
  assign k v b = {| props := set_prop k v (props b); proto := proto b |}.
Proof. intros H. unfold assign. apply String.eqb_neq in H. now rewrite H. Qed.

(** An assignment defines the property or leaves the own properties alone. *)
Lemma assign_props k v b :
  props (assign k v b) = props b \/ props (assign k v b) = set_prop k v (props b).
Proof.
  unfold assign. destruct (String.eqb k "__proto__"); [|now right].
  destruct (get_prop k (props b)); [now right|].
  destruct (reaches_accessor (proto b)); [now left | now right].
Qed.

Lemma assign_is_object k v b : is_object (props b) -> is_object (props (assign k v b)).
Proof.
  intros H. destruct (assign_props k v b) as [E|E]; rewrite E;
    [assumption | now apply set_prop_is_object].
Qed.

Lemma In_assign kv k v b :
  In kv (props (assign k v b)) -> kv = (k, v) \/ In kv (props b).
Proof.
  destruct (assign_props k v b) as [E|E]; rewrite E; [now right | apply In_set_prop].
Qed.

Lemma get_assign_other k k' v b :
  k <> k' -> get_prop k (props (assign k' v b)) = get_prop k (props b).
Proof.
  intros H. destruct (assign_props k' v b) as [E|E]; rewrite E;
    [reflexivity | now apply get_set_other].
Qed.

Lemma get_assign_same k v b :
  k <> "__proto__" -> get_prop k (props (assign k v b)) = Some v.
Proof. intros H. rewrite assign_plain by assumption. apply get_set_same. Qed.

Lemma assign_entries_is_object l b :
  is_object (props b) -> is_object (props (assign_entries l b)).
Proof.
  unfold assign_entries. revert b.
  induction l as [|[k v] rest IH]; simpl; intros b H; [assumption|].
  apply IH. now apply assign_is_object.
Qed.

Lemma In_assign_entries kv l b :
  In kv (props (assign_entries l b)) -> In kv l \/ In kv (props b).
Proof.
  unfold assign_entries. revert b.
  induction l as [|[k v] rest IH]; simpl; intros b H; [now right|].
  destruct (IH _ H) as [H'|H']; [left; now right|].
  destruct (In_assign _ _ _ _ H') as [->|H'']; [left; now left | now right].
Qed.

(** A key other than [__proto__] is looked up as after a run of property
    definitions: the last entry under the key decides. *)
Lemma get_assign_entries k l b :
  k <> "__proto__" ->
  get_prop k (props (assign_entries l b)) =
  match get_prop k (rev l) with
  | Some v => Some v
  | None => get_prop k (props b)
  end.
Proof.
  intros Hk. unfold assign_entries. revert b.
  induction l as [|[k' v'] rest IH]; intros b; simpl; [reflexivity|].
  rewrite IH, get_prop_app. destruct (get_prop k (rev rest)); [reflexivity|].
  simpl. destruct (String.eqb_spec k k') as [<-|Hne].
  - now apply get_assign_same.
  - now apply get_assign_other.
Qed.

(** Without the key [__proto__] a run of assignments is a spread. *)
Lemma assign_entries_plain l b :
  ~ In "__proto__" (own_keys l) ->
  props (assign_entries l b) = copy_props l (props b).
Proof.
  unfold assign_entries, copy_props. revert b.
  induction l as [|[k v] rest IH]; intros b H; simpl; [reflexivity|].
  simpl in H. rewrite IH by tauto.
  rewrite assign_plain by (intros ->; tauto). reflexivity.
Qed.

(** *** Normalization *)

Lemma normalizeFieldNames_entries o :
  normalizeFieldNames o = props (assign_entries (List.map rename_entry o) empty_object).
Proof.
  unfold normalizeFieldNames, assign_entries, Object_entries. f_equal.
  generalize empty_object.
  induction o as [|kv rest IH]; intros b; simpl; [reflexivity | apply IH].
Qed.

(** An override with a [__proto__] entry. *)
Lemma normalizeFieldNames_proto_example :
  normalizeFieldNames
    [ ("__proto__", JObj [ ("company", JStr "Initech") ]); ("company", JStr "Acme") ]
  = [ ("company", JStr "Acme") ].
Proof. reflexivity. Qed.

Lemma normalizedKey_other k : k <> "jobtitle" -> normalizedKey k = k.
Proof.
  intros Hne. unfold normalizedKey. apply String.eqb_neq in Hne. now rewrite Hne.
Qed.

Lemma normalizedKey_not_legacy k : normalizedKey k <> "jobtitle".
Proof.
  unfold normalizedKey. destruct (String.eqb_spec k "jobtitle"); [discriminate | assumption].
Qed.

Lemma normalizedKey_proto k : normalizedKey k = "__proto__" -> k = "__proto__".
Proof.
  unfold normalizedKey. destruct (String.eqb_spec k "jobtitle"); [discriminate | auto].
Qed.

(** The assignment of the loop defines no [__proto__] property: the value
    becomes the prototype of the normalized object, which the merge does
    not read. *)
Lemma normalizeFieldNames_drops_proto o :
  is_object o -> get_prop "__proto__" (normalizeFieldNames o) = None.
Proof.
  unfold normalizeFieldNames, Object_entries, is_object.
  assert (H : forall b,
             List.NoDup (own_keys o) ->
             get_prop "__proto__" (props b) = None ->
             (In "__proto__" (own_keys o) -> reaches_accessor (proto b) = true) ->
             get_prop "__proto__"
               (props
                  (fold_left
                     (fun normalized kv =>
                        assign (normalizedKey (fst kv)) (snd kv) normalized) o b))
             = None).
  { induction o as [|[k v] rest IH]; intros b Hobj Hnone Hreach; simpl; [exact Hnone|].
    simpl in Hobj. apply List.NoDup_cons_iff in Hobj as [Hnot Hobj].
    destruct (String.eqb_spec k "__proto__") as [->|Hk].
    - change (normalizedKey "__proto__") with "__proto__".
      assert (E : assign "__proto__" v b
                  = {| props := props b; proto := proto_setter v (proto b) |}).
      { unfold assign. rewrite String.eqb_refl, Hnone, Hreach; [reflexivity|].
        simpl. now left. }
      rewrite E. apply IH; [exact Hobj | exact Hnone | intros Hin; contradiction].
    - assert (Hn : normalizedKey k <> "__proto__")
        by (intros E; apply normalizedKey_proto in E; contradiction).
      rewrite assign_plain by exact Hn.
      apply IH; [exact Hobj | |].
      + simpl. rewrite get_set_other; [exact Hnone | congruence].
      + intros Hin. simpl. apply Hreach. simpl. now right. }
  intros Hobj. apply H; [exact Hobj | reflexivity | reflexivity].
Qed.

(** A property of the normalized override was stored by one turn of the loop. *)
Lemma In_normalizeFieldNames k v (o : obj) :
  In (k, v) (normalizeFieldNames o) ->
  exists k0, In (k0, v) o /\ normalizedKey k0 = k.
Proof.
  rewrite normalizeFieldNames_entries. intros H.
  apply In_assign_entries in H as [H|[]].
  apply in_map_iff in H as [[k0 v0] [E H]]. injection E as <- <-.
  now exists k0.
Qed.

Lemma normalizeFieldNames_copy o :
  ~ In "__proto__" (own_keys o) ->
  normalizeFieldNames o = copy_props (List.map rename_entry o) [].
Proof.
  intros H. rewrite normalizeFieldNames_entries. apply assign_entries_plain.
  unfold own_keys in *. rewrite map_map. intros Hin.
  apply in_map_iff in Hin as [kv [Hk Hin]]. simpl in Hk.
  apply normalizedKey_proto in Hk. apply H. rewrite <- Hk. now apply in_map.
Qed.

Lemma normalizeFieldNames_is_object o : is_object (normalizeFieldNames o).
Proof.
  rewrite normalizeFieldNames_entries. apply assign_entries_is_object. constructor.
Qed.

Lemma removeNulls_is_object o : is_object (removeNulls o).
Proof. apply copy_props_is_object. constructor. Qed.

Lemma removeNulls_filter o :
  is_object o -> removeNulls o = List.filter (fun kv => not_null (snd kv)) o.
Proof.
  intros Hobj. unfold removeNulls, Object_fromEntries, Object_entries.
  apply copy_props_nil. now apply filter_is_object.
Qed.

Lemma get_removeNulls k o :
  is_object o ->
  get_prop k (removeNulls o) =
  match get_prop k o with
  | Some v => if not_null v then Some v else None
  | None => None
  end.
Proof.
  intros Hobj. rewrite removeNulls_filter by assumption.
  now apply (get_prop_filter not_null).
Qed.

Lemma has_keys_false o : has_keys o = false -> o = [].
Proof. destruct o; [reflexivity | discriminate]. Qed.

(** A null-filtered override spread over a target: the lookup rule shared
    by the three sections. *)
Lemma get_merge k target override :
  is_object target -> is_object override ->
  get_prop k
    (if has_keys (removeNulls override)
     then spread2 target (removeNulls override) else target) =
  match get_prop k override with
  | Some v => if not_null v then Some v else get_prop k target
  | None => get_prop k target
  end.
Proof.
  intros Ht Ho. pose proof (get_removeNulls k override Ho) as Hget.
  destruct (has_keys (removeNulls override)) eqn:Hk.
  - unfold spread2. rewrite get_copy_props.
    rewrite get_prop_rev by apply removeNulls_is_object.
    rewrite Hget, copy_props_nil by assumption.
    destruct (get_prop k override) as [v|]; [destruct (not_null v)|]; reflexivity.
  - apply has_keys_false in Hk. rewrite Hk in Hget. simpl in Hget.
    destruct (get_prop k override) as [v|]; [|reflexivity].
    destruct (not_null v); [discriminate | reflexivity].
Qed.

Lemma get_apply_section k target override :
  is_object target -> is_object override ->
  get_prop k (apply_section target override) =
  match get_prop k override with
  | Some v => if not_null v then Some v else get_prop k target
  | None => get_prop k target
  end.
Proof. apply get_merge. Qed.

Lemma get_apply_speaker k (overrides : dict obj) (speaker : obj) :
  is_object speaker ->
  get_prop k (apply_speaker overrides speaker) =
  match get_prop (ToString_opt (get_prop "name" speaker)) overrides with
  | Some override =>
      match get_prop k (normalizeFieldNames override) with
      | Some v => if not_null v then Some v else get_prop k speaker
      | None => get_prop k speaker
      end
  | None => get_prop k speaker
  end.
Proof.
  intros Hs. unfold apply_speaker.
  destruct (get_prop _ overrides) as [override|]; [|reflexivity].
  apply get_merge; [assumption | apply normalizeFieldNames_is_object].
Qed.

Lemma get_normalizeFieldNames k o :
  k <> "__proto__" ->
  get_prop k (normalizeFieldNames o) = get_prop k (rev (List.map rename_entry o)).
Proof.
  intros Hk. rewrite normalizeFieldNames_entries, get_assign_entries by assumption.
  now destruct (get_prop _ _).
Qed.

Lemma get_prop_renamed_absent (K : string) (l : obj) :
  (forall k, In k (own_keys l) -> normalizedKey k <> K) ->
  get_prop K (rev (List.map rename_entry l)) = None.
Proof.
  intros H. apply get_prop_None. unfold own_keys.
  rewrite <- map_rev, map_map. intros Hin.
  apply in_map_iff in Hin as [[k v] [Hk Hin]]. simpl in Hk.
  apply (H k); [|exact Hk].
  apply in_rev in Hin. unfold own_keys. change k with (fst (k, v)). now apply in_map.
Qed.

(** Keys other than the two spellings of the job title and [__proto__] are
    looked up as in the override itself. *)
Lemma get_normalized_other k o :
  is_object o -> k <> "jobtitle" -> k <> "jobTitle" -> k <> "__proto__" ->
  get_prop k (normalizeFieldNames o) = get_prop k o.
Proof.
  intros Hobj H1 H2 H3.
  rewrite get_normalizeFieldNames, <- (get_prop_rev k o Hobj) by assumption.
  clear Hobj. induction o as [|[k' v'] rest IH]; simpl; [reflexivity|].
  rewrite !get_prop_app, IH. destruct (get_prop k (rev rest)); [reflexivity|].
  simpl. unfold normalizedKey.
  destruct (String.eqb_spec k' "jobtitle") as [->|Hk'].
  - apply String.eqb_neq in H1, H2. now rewrite H1, H2.
  - reflexivity.
Qed.

Lemma get_normalized_legacy o : get_prop "jobtitle" (normalizeFieldNames o) = None.
Proof.
  destruct (get_prop "jobtitle" (normalizeFieldNames o)) as [v|] eqn:E; [|reflexivity].
  apply get_prop_In, In_normalizeFieldNames in E as [k0 [_ Hk0]].
  now apply normalizedKey_not_legacy in Hk0.
Qed.

(** Without a canonical [jobTitle] in the override, the legacy key supplies it. *)
Lemma get_normalized_from_legacy o :
  is_object o -> ~ In "jobTitle" (own_keys o) ->
  get_prop "jobTitle" (normalizeFieldNames o) = get_prop "jobtitle" o.
Proof.
  intros Hobj Hnotin.
  rewrite get_normalizeFieldNames, <- (get_prop_rev "jobtitle" o Hobj) by discriminate.
  clear Hobj. induction o as [|[k' v'] rest IH]; simpl; [reflexivity|].
  simpl in Hnotin. rewrite !get_prop_app, IH by tauto.
  destruct (get_prop "jobtitle" (rev rest)); [reflexivity|].
  simpl. unfold normalizedKey.
  destruct (String.eqb_spec k' "jobtitle") as [->|Hk1]; [reflexivity|].
  destruct (String.eqb_spec "jobTitle" k') as [<-|Hk2]; [tauto|].
  destruct (String.eqb_spec "jobtitle" k') as [<-|Hk3]; [congruence | reflexivity].
Qed.

(** Without the legacy key, and without [__proto__], the override is left
    as it is. *)
Lemma normalizeFieldNames_no_legacy o :
  is_object o -> ~ In "jobtitle" (own_keys o) -> ~ In "__proto__" (own_keys o) ->
  normalizeFieldNames o = o.
Proof.
  intros Hobj Hnotin Hproto. rewrite normalizeFieldNames_copy by assumption.
  replace (List.map rename_entry o) with o; [now apply copy_props_nil|].
  clear Hobj Hproto. induction o as [|[k' v'] rest IH]; simpl; [reflexivity|].
  simpl in Hnotin. unfold rename_entry at 1. simpl.
  rewrite normalizedKey_other by (intros ->; tauto). f_equal. apply IH. tauto.
Qed.

(** *** Decisive entries *)

Lemma decisive_In (o : obj) k v : decisive o k v -> In (k, v) o.
Proof.
  intros (before & after & -> & _). apply in_or_app. right. now left.
Qed.

Lemma decisive_single k v : decisive [(k, v)] k v.
Proof. exists [], []. split; [reflexivity | intros k' []]. Qed.

(** With distinct keys, every entry but a spelling of the job title is
    decisive. *)
Lemma In_decisive (o : obj) k v :
  is_object o -> In (k, v) o -> normalizedKey k <> "jobTitle" -> decisive o k v.
Proof.
  intros Hobj Hin Hk. apply in_split in Hin as (before & after & ->).
  exists before, after. split; [reflexivity|]. intros k' Hin' Heq.
  unfold is_object in Hobj. rewrite own_keys_app in Hobj.
  apply List.NoDup_app_remove_l in Hobj. simpl in Hobj.
  apply List.NoDup_cons_iff in Hobj as [Hnot _]. apply Hnot.
  assert (Hk1 : k <> "jobtitle") by (intros ->; now apply Hk).
  assert (Hk2 : k' <> "jobtitle").
  { intros ->. apply Hk. rewrite <- Heq. reflexivity. }
  rewrite !normalizedKey_other in Heq by assumption. now subst k'.
Qed.

(** The normalized override holds the value of the decisive entry. *)
Lemma get_normalized_decisive (o : obj) k v :
  decisive o k v -> k <> "__proto__" ->
  get_prop (normalizedKey k) (normalizeFieldNames o) = Some v.
Proof.
  intros (before & after & -> & Hlater) Hk.
  rewrite get_normalizeFieldNames
    by (intros E; apply normalizedKey_proto in E; contradiction).
  rewrite map_app, rev_app_distr. cbn [List.map rev].
  rewrite <- app_assoc, get_prop_app, get_prop_renamed_absent by exact Hlater.
  cbn [app get_prop rename_entry fst snd]. now rewrite String.eqb_refl.
Qed.

End Merge.

(** ** Extraction *)

Lemma extractSpeakers_cons session rest :
  extractSpeakers (session :: rest) =
  if has_speaker session
  then let* y := session_entry session in
       let* ys := extractSpeakers rest in
       Return (y :: ys)
  else extractSpeakers rest.
Proof. unfold extractSpeakers. simpl. now destruct (has_speaker session). Qed.

Lemma extractSpeakers_Extracted sessions :
  exists entries,
    extractSpeakers sessions = Return entries /\ Extracted sessions entries.
Proof.
  induction sessions as [|session rest [entries [Hrun Hspec]]].
  - exists []. split; [reflexivity | constructor].
  - rewrite extractSpeakers_cons. unfold has_speaker, session_entry.
    destruct (Session.Session_id session) as [sessionData|] eqn:Hw.
    + destruct (SessionData.speakers sessionData) as [speaker|] eqn:Hs.
      * exists (speaker_entry sessionData speaker :: entries). simpl.
        rewrite Hrun. split; [reflexivity | eapply Extracted_speaker; eassumption].
      * exists entries. split; [assumption | eapply Extracted_no_speaker; eassumption].
    + exists entries. split; [assumption | now apply Extracted_no_wrapper].
Qed.

Lemma Extracted_functional sessions entries1 entries2 :
  Extracted sessions entries1 -> Extracted sessions entries2 -> entries1 = entries2.
Proof.
  intros H1. revert entries2.
  induction H1; intros entries2 H2; inversion H2; subst;
    try reflexivity; try congruence; try (now apply IHExtracted).
  f_equal; [congruence | now apply IHExtracted].
Qed.

Lemma Extracted_length sessions entries :
  Extracted sessions entries ->
  length entries = length (List.filter has_speaker sessions).
Proof.
  assert (Hkeep : forall s, has_speaker s =
            match Session.Session_id s with
            | Some sd => match SessionData.speakers sd with Some _ => true | None => false end
            | None => false
            end) by reflexivity.
  induction 1 as [| s rest es Hw _ IH | s sd rest es Hw Hs _ IH
                 | s sd sp rest es Hw Hs _ IH]; simpl.
  - reflexivity.
  - now rewrite Hkeep, Hw.
  - now rewrite Hkeep, Hw, Hs.
  - rewrite Hkeep, Hw, Hs. simpl. now f_equal.
Qed.

Lemma Extracted_app s1 s2 e1 e2 :
  Extracted s1 e1 -> Extracted s2 e2 -> Extracted (s1 ++ s2)%list (e1 ++ e2)%list.
Proof.
  intros H1 H2. induction H1; simpl; [assumption | | |].
  - now apply Extracted_no_wrapper.
  - eapply Extracted_no_speaker; eassumption.
  - eapply Extracted_speaker; eassumption.
Qed.

Lemma extractMeetupData_speakers meetup entries :
  extractSpeakers (Meetup.sessions meetup) = Return entries ->
  exists data,
    extractMeetupData meetup = Return data
    /\ MeetupData.speakers data = entries
    /\ MeetupData.sponsor data = extractSponsor (Meetup.sponsors meetup).
Proof.
  intros Hrun. unfold extractMeetupData. rewrite Hrun. simpl.
  eexists. repeat split.
Qed.

(** C4. Extraction returns (the map callback never throws on what the
    filter keeps), and the speaker list of the data holds, in session order,
    exactly one entry per session that carries a nested speaker: a session
    without one contributes nothing, so there are as many entries as such
    sessions, and no other list fits the sessions. *)
Theorem session_filter_invariant (meetup : Meetup.t) :
  exists data,
    extractMeetupData meetup = Return data
    /\ extractSpeakers (Meetup.sessions meetup) = Return (MeetupData.speakers data)
    /\ Extracted (Meetup.sessions meetup) (MeetupData.speakers data)
    /\ length (MeetupData.speakers data)
       = length (List.filter has_speaker (Meetup.sessions meetup))
    /\ (forall entries,
          Extracted (Meetup.sessions meetup) entries ->
          entries = MeetupData.speakers data).
Proof.
  destruct (extractSpeakers_Extracted (Meetup.sessions meetup)) as [entries [Hrun Hspec]].
  destruct (extractMeetupData_speakers meetup entries Hrun) as (data & Hdata & <- & _).
  exists data. repeat split; try assumption.
  - now apply Extracted_length.
  - intros entries' H'. now apply (Extracted_functional (Meetup.sessions meetup)).
Qed.

(** C6. Only the head of the sponsor list is read: an empty list or a head
    without nested sponsor object gives null; otherwise the sponsor has the
    nested object's name and, as logo, the asset URL of the logo's file name
    when there is a logo and null when there is none; the entries after the
    head never matter. *)
Theorem sponsor_extraction :
  extractSponsor [] = None
  /\ (forall first rest,
        Sponsor.Sponsor_id first = None -> extractSponsor (first :: rest) = None)
  /\ (forall first rest sd,
        Sponsor.Sponsor_id first = Some sd ->
        extractSponsor (first :: rest) =
        Some [ ("name", JStr (SponsorData.Name sd));
               ("logo", match SponsorData.Logo sd with
                        | Some logo =>
                            JStr ("https://frontend.mu/assets/" ++ Logo.filename_disk logo)
                        | None => JNull
                        end) ])
  /\ (forall first rest, extractSponsor (first :: rest) = extractSponsor [first])
  /\ (forall meetup, exists data,
        extractMeetupData meetup = Return data
        /\ MeetupData.sponsor data = extractSponsor (Meetup.sponsors meetup)).
Proof.
  repeat split.
  - intros first rest H. unfold extractSponsor. simpl. now rewrite H.
  - intros first rest sd H. unfold extractSponsor. simpl. now rewrite H.
  - intros meetup. unfold extractMeetupData.
    destruct (extractSpeakers_Extracted (Meetup.sessions meetup)) as [entries [Hrun _]].
    rewrite Hrun. simpl. eexists. split; reflexivity.
Qed.

(** C10. A session whose nested speaker has the empty string as
    [github_account] yields, wherever it stands in the meetup's session
    list, an entry whose [githubUsername] and [githubAvatar] are both null. *)
Theorem empty_github_account_is_no_username
    (meetup : Meetup.t) (before after : list Session.t) (session : Session.t)
    (sessionData : SessionData.t) (speaker : Speaker.t) :
  Meetup.sessions meetup = (before ++ session :: after)%list ->
  Session.Session_id session = Some sessionData ->
  SessionData.speakers sessionData = Some speaker ->
  Speaker.github_account speaker = Some "" ->
  exists data entries1 entry entries2,
    extractMeetupData meetup = Return data
    /\ MeetupData.speakers data = (entries1 ++ entry :: entries2)%list
    /\ extractSpeakers before = Return entries1
    /\ extractSpeakers after = Return entries2
    /\ get_prop "name" entry = Some (JStr (Speaker.name speaker))
    /\ get_prop "githubUsername" entry = Some JNull
    /\ get_prop "githubAvatar" entry = Some JNull.
Proof.
  intros Hsessions Hw Hs Hg.
  destruct (extractSpeakers_Extracted before) as [e1 [Hrun1 Hspec1]].
  destruct (extractSpeakers_Extracted after) as [e2 [Hrun2 Hspec2]].
  destruct (extractSpeakers_Extracted (Meetup.sessions meetup)) as [e [Hrun Hspec]].
  destruct (extractMeetupData_speakers meetup e Hrun) as (data & Hdata & Hspeakers & _).
  exists data, e1, (speaker_entry sessionData speaker), e2.
  repeat split; try assumption.
  - rewrite Hspeakers.
    apply (Extracted_functional (Meetup.sessions meetup)); [assumption|].
    rewrite Hsessions.
    apply Extracted_app; [assumption|]. eapply Extracted_speaker; eassumption.
  - unfold speaker_entry. rewrite Hg. reflexivity.
  - unfold speaker_entry. rewrite Hg. reflexivity.
Qed.

(** ** The merge engine *)

Lemma not_null_true v : not_null v = true <-> v <> JNull.
Proof. destruct v; simpl; split; congruence. Qed.

Lemma all_null_copy_props (src target : obj) :
  all_null src -> all_null target -> all_null (copy_props src target).
Proof.
  unfold all_null. rewrite !List.Forall_forall. intros Hs Ht kv H.
  apply In_copy_props in H as [H|H]; auto.
Qed.

Lemma all_null_removeNulls (o : obj) : all_null o -> removeNulls o = [].
Proof.
  unfold removeNulls, Object_fromEntries, Object_entries, all_null.
  intros H. replace (List.filter _ o) with (@nil (string * json)); [reflexivity|].
  induction H as [|[k v] rest Hv _ IH]; simpl; [reflexivity|].
  simpl in Hv. subst v. simpl. exact IH.
Qed.

Lemma all_null_normalizeFieldNames (o : obj) :
  all_null o -> all_null (normalizeFieldNames o).
Proof.
  unfold all_null. rewrite !List.Forall_forall. intros H [k v] Hin.
  apply In_normalizeFieldNames in Hin as [k0 [Hin _]]. exact (H _ Hin).
Qed.

Lemma apply_section_all_null (target override : obj) :
  all_null override -> apply_section target override = target.
Proof. intros H. unfold apply_section. now rewrite all_null_removeNulls. Qed.

Lemma apply_speaker_all_null (overrides : dict obj) (speaker : obj) :
  Forall (fun entry => all_null (snd entry)) overrides ->
  apply_speaker overrides speaker = speaker.
Proof.
  intros H. unfold apply_speaker.
  destruct (get_prop _ overrides) as [override|] eqn:E; [|reflexivity].
  apply get_prop_In in E. rewrite List.Forall_forall in H. specialize (H _ E).
  simpl in H. apply all_null_normalizeFieldNames in H.
  now rewrite all_null_removeNulls.
Qed.

(** C9. When extraction produced no sponsor, the merged data has none
    either, whatever the override document holds in its sponsor section. *)
Theorem null_sponsor_stays_null
    (data : MeetupData.t) (overrides : option MeetupDataOverride.t) :
  MeetupData.sponsor data = None ->
  MeetupData.sponsor (applyOverrides data overrides) = None.
Proof.
  intros H. destruct overrides as [ov|]; simpl; [|assumption].
  rewrite H. now destruct (MeetupDataOverride.sponsor ov).
Qed.

(** C2. An override document all of whose field values (meetup section,
    every speaker entry, sponsor section) are null leaves the data as it
    was. *)
Theorem null_overrides_change_nothing
    (data : MeetupData.t) (ov : MeetupDataOverride.t) :
  null_only ov -> applyOverrides data (Some ov) = data.
Proof.
  intros (Hm & Hs & Hp). destruct data as [meetup speakers sponsor].
  unfold applyOverrides. simpl. f_equal.
  - destruct (MeetupDataOverride.meetup ov) as [o|]; [|reflexivity].
    apply apply_section_all_null. now apply Hm.
  - destruct (MeetupDataOverride.speakers ov) as [m|]; [|reflexivity].
    specialize (Hs m eq_refl).
    induction speakers as [|sp rest IH]; simpl; [reflexivity|].
    now rewrite apply_speaker_all_null, IH.
  - destruct (MeetupDataOverride.sponsor ov) as [o|]; [|reflexivity].
    destruct sponsor as [s|]; [|reflexivity].
    f_equal. apply apply_section_all_null. now apply Hp.
Qed.

Lemma overrides_win_section (target override : obj) :
  is_object target -> is_object override ->
  overrides_win target override (apply_section target override).
Proof.
  intros Ht Ho. split.
  - intros k v Hget Hv. rewrite get_apply_section, Hget by assumption.
    apply not_null_true in Hv. now rewrite Hv.
  - intros k Hfree. rewrite get_apply_section by assumption.
    destruct (get_prop k override) as [v|] eqn:Hget; [|reflexivity].
    now rewrite (Hfree v eq_refl).
Qed.

Lemma speaker_overrides_win_apply (overrides : dict obj) (speaker override : obj) :
  is_object speaker ->
  get_prop (ToString_opt (get_prop "name" speaker)) overrides = Some override ->
  speaker_overrides_win speaker override (apply_speaker overrides speaker).
Proof.
  intros Hs Hfound. split.
  - intros k v Hdec Hv Hk. rewrite get_apply_speaker, Hfound by assumption.
    rewrite (get_normalized_decisive _ _ _ Hdec Hk).
    apply not_null_true in Hv. now rewrite Hv.
  - intros k' Hfree. rewrite get_apply_speaker, Hfound by assumption.
    destruct (get_prop k' (normalizeFieldNames override)) as [v|] eqn:Hget; [|reflexivity].
    apply get_prop_In, In_normalizeFieldNames in Hget as [k0 [Hin Hk0]].
    now rewrite (Hfree k0 v Hin Hk0).
Qed.

(** C1, as amended. With well-formed objects, every non-null field of the
    meetup section, and of the sponsor section when extraction produced a
    sponsor, is the value of the field of that name. In the override of a
    speaker, looked up by name, every non-null entry that is the last one
    for its field is the value of that field, [jobtitle] standing for
    [jobTitle]; the last one, because where the override spells the job
    title both ways the later of the two entries is the one that counts
    (every other entry is the last for its field). The statement is silent
    on the key [__proto__] of a speaker override. Every field for which the
    override holds only null, or nothing, keeps its extracted value;
    speakers keep their number and order, and a null sponsor stays null. *)
Theorem merge_precedence (data : MeetupData.t) (ov : MeetupDataOverride.t) :
  well_formed_data data ->
  well_formed_overrides ov ->
  match MeetupDataOverride.meetup ov with
  | Some o =>
      overrides_win (MeetupData.meetup data) o
        (MeetupData.meetup (applyOverrides data (Some ov)))
  | None => MeetupData.meetup (applyOverrides data (Some ov)) = MeetupData.meetup data
  end
  /\ Forall2
       (fun speaker merged =>
          match override_of ov speaker with
          | Some o => speaker_overrides_win speaker o merged
          | None => merged = speaker
          end)
       (MeetupData.speakers data)
       (MeetupData.speakers (applyOverrides data (Some ov)))
  /\ match MeetupData.sponsor data with
     | Some s =>
         exists s',
           MeetupData.sponsor (applyOverrides data (Some ov)) = Some s'
           /\ match MeetupDataOverride.sponsor ov with
              | Some o => overrides_win s o s'
              | None => s' = s
              end
     | None => MeetupData.sponsor (applyOverrides data (Some ov)) = None
     end
  /\ (forall (o : obj) (k : string) (v : json),
        is_object o -> In (k, v) o -> normalizedKey k <> "jobTitle" ->
        decisive o k v).
Proof.
  intros (Hdm & Hds & Hdp) (Hom & Hos & Hop).
  destruct data as [meetup speakers sponsor]. simpl in *.
  split; [|split; [|split]].
  - destruct (MeetupDataOverride.meetup ov) as [o|]; [|reflexivity].
    apply overrides_win_section; auto.
  - unfold override_of in *.
    destruct (MeetupDataOverride.speakers ov) as [m|].
    + induction speakers as [|sp rest IH]; simpl; constructor.
      * destruct (get_prop _ m) as [o|] eqn:Hfound.
        -- apply speaker_overrides_win_apply; [now inversion Hds | assumption].
        -- unfold apply_speaker. now rewrite Hfound.
      * apply IH. now inversion Hds.
    + clear Hds. induction speakers; constructor; auto.
  - destruct sponsor as [s|].
    + destruct (MeetupDataOverride.sponsor ov) as [o|].
      * eexists. split; [reflexivity|]. apply overrides_win_section; auto.
      * now exists s.
    + now destruct (MeetupDataOverride.sponsor ov).
  - exact In_decisive.
Qed.

Ltac object_tac :=
  unfold is_object; simpl; repeat constructor; simpl; intuition discriminate.

Lemma fixture_data_well_formed : well_formed_data Fixture.data.
Proof.
  repeat split; simpl; [object_tac | | discriminate].
  constructor; [object_tac | constructor].
Qed.

Lemma for_speakers_well_formed (m : dict obj) :
  Forall (fun entry => is_object (snd entry)) m ->
  well_formed_overrides (Fixture.for_speakers m).
Proof.
  intros H. repeat split; simpl; try discriminate. now intros ? [= <-].
Qed.

(** The specification's example, obtained from [merge_precedence]: speaker
    [{name: "A", company: null}] under [{"A": {company: "Acme"}}]. *)
Lemma merge_precedence_witness :
  well_formed_data Fixture.data
  /\ well_formed_overrides Fixture.company_override
  /\ exists merged,
       MeetupData.speakers (applyOverrides Fixture.data (Some Fixture.company_override))
       = [merged]
       /\ get_prop "company" merged = Some (JStr "Acme")
       /\ get_prop "name" merged = Some (JStr "A").
Proof.
  assert (Hd : well_formed_data Fixture.data) by exact fixture_data_well_formed.
  assert (Ho : well_formed_overrides Fixture.company_override).
  { apply for_speakers_well_formed. constructor; [object_tac | constructor]. }
  split; [exact Hd|]. split; [exact Ho|].
  destruct (merge_precedence Fixture.data Fixture.company_override Hd Ho)
    as (_ & Hsp & _).
  simpl in Hsp. inversion Hsp as [|sp merged ? ? Hhead Hrest]; subst.
  change (override_of Fixture.company_override Fixture.speakerA)
    with (Some [("company", JStr "Acme")]) in Hhead.
  destruct Hhead as [Hwin Hkeep].
  exists (apply_speaker [("A", [("company", JStr "Acme")])] Fixture.speakerA).
  split; [reflexivity|]. split.
  - apply (Hwin "company"); [apply decisive_single | discriminate | discriminate].
  - rewrite (Hkeep "name"); [reflexivity|].
    intros k v [[= <- <-]|[]] Hk. discriminate Hk.
Defined.

(** C1 as stated fails where a speaker override spells the job title both
    ways, with two values. Under [{jobTitle: "Staff Engineer", jobtitle:
    "Eng"}] the non-null [jobTitle] field does not replace the speaker's
    [jobTitle]: the merged value is the one of the legacy entry that
    follows it. *)
Lemma merge_precedence_counterexample :
  well_formed_data Fixture.data
  /\ well_formed_overrides (Fixture.for_speakers [("A", Fixture.clash_both)])
  /\ override_of (Fixture.for_speakers [("A", Fixture.clash_both)]) Fixture.speakerA
     = Some Fixture.clash_both
  /\ get_prop "jobTitle" Fixture.clash_both = Some (JStr "Staff Engineer")
  /\ JStr "Staff Engineer" <> JNull
  /\ exists merged,
       MeetupData.speakers
         (applyOverrides Fixture.data
            (Some (Fixture.for_speakers [("A", Fixture.clash_both)])))
       = [merged]
       /\ get_prop "jobTitle" merged = Some (JStr "Eng")
       /\ JStr "Eng" <> JStr "Staff Engineer".
Proof.
  split; [exact fixture_data_well_formed|]. split.
  { apply for_speakers_well_formed. constructor; [object_tac | constructor]. }
  split; [reflexivity|]. split; [reflexivity|]. split; [discriminate|].
  eexists. split; [reflexivity|]. split; [reflexivity | discriminate].
Qed.

(** C3, as amended. The loop of [normalizeFieldNames] stores the legacy key
    [jobtitle] under [jobTitle] and every other key under itself. The
    normalized override never has a [jobtitle] property. Its [jobTitle] is
    the value of the last entry spelled [jobtitle] or [jobTitle]: of the
    legacy entry when the override has no [jobTitle], and of the later of
    the two when it has both. Every key other than [jobtitle] is still a
    key, with its own value when it is not [jobTitle]; an override without
    the legacy key is unchanged. The statement is silent on the key
    [__proto__]. A speaker merged under an override whose last job title
    entry is [v], not null, has [jobTitle] equal to [v], and its [jobtitle]
    property, if any, is not touched. The meetup and sponsor sections are
    not normalized: there a [jobtitle] override is merged under that very
    key and [jobTitle] is left alone. *)
Theorem key_normalization :
  (normalizedKey "jobtitle" = "jobTitle"
   /\ forall k, k <> "jobtitle" -> normalizedKey k = k)
  /\ (forall o : obj, get_prop "jobtitle" (normalizeFieldNames o) = None)
  /\ (forall (o : obj) (k : string) (v : json),
        decisive o k v -> k = "jobtitle" \/ k = "jobTitle" ->
        get_prop "jobTitle" (normalizeFieldNames o) = Some v)
  /\ (forall (o : obj) (v : json),
        is_object o -> get_prop "jobtitle" o = Some v ->
        ~ In "jobTitle" (own_keys o) ->
        get_prop "jobTitle" (normalizeFieldNames o) = Some v)
  /\ (forall (o : obj) (k : string),
        is_object o -> k <> "jobtitle" -> k <> "__proto__" ->
        (In k (own_keys o) -> In k (own_keys (normalizeFieldNames o)))
        /\ (k <> "jobTitle" -> get_prop k (normalizeFieldNames o) = get_prop k o))
  /\ (forall o : obj,
        is_object o -> ~ In "jobtitle" (own_keys o) ->
        ~ In "__proto__" (own_keys o) -> normalizeFieldNames o = o)
  /\ (forall (data : MeetupData.t) (ov : MeetupDataOverride.t) (i : nat)
             (speaker o : obj) (k : string) (v : json),
        nth_error (MeetupData.speakers data) i = Some speaker -> is_object speaker ->
        override_of ov speaker = Some o ->
        decisive o k v -> k = "jobtitle" \/ k = "jobTitle" -> v <> JNull ->
        exists merged,
          nth_error (MeetupData.speakers (applyOverrides data (Some ov))) i
          = Some merged
          /\ get_prop "jobTitle" merged = Some v
          /\ get_prop "jobtitle" merged = get_prop "jobtitle" speaker)
  /\ (forall (data : MeetupData.t) (ov : MeetupDataOverride.t) (o : obj) (v : json),
        is_object (MeetupData.meetup data) ->
        MeetupDataOverride.meetup ov = Some o -> is_object o ->
        get_prop "jobtitle" o = Some v -> v <> JNull ->
        get_prop "jobtitle" (MeetupData.meetup (applyOverrides data (Some ov))) = Some v
        /\ (get_prop "jobTitle" o = None ->
            get_prop "jobTitle" (MeetupData.meetup (applyOverrides data (Some ov)))
            = get_prop "jobTitle" (MeetupData.meetup data)))
  /\ (forall (data : MeetupData.t) (ov : MeetupDataOverride.t) (s o : obj) (v : json),
        MeetupData.sponsor data = Some s -> is_object s ->
        MeetupDataOverride.sponsor ov = Some o -> is_object o ->
        get_prop "jobtitle" o = Some v -> v <> JNull ->
        exists s',
          MeetupData.sponsor (applyOverrides data (Some ov)) = Some s'
          /\ get_prop "jobtitle" s' = Some v
          /\ (get_prop "jobTitle" o = None ->
              get_prop "jobTitle" s' = get_prop "jobTitle" s)).
Proof.
  assert (Hsection : forall (target o : obj) (v : json),
            is_object target -> is_object o ->
            get_prop "jobtitle" o = Some v -> v <> JNull ->
            get_prop "jobtitle" (apply_section target o) = Some v
            /\ (get_prop "jobTitle" o = None ->
                get_prop "jobTitle" (apply_section target o)
                = get_prop "jobTitle" target)).
  { intros target o v Ht Ho Hget Hv.
    rewrite !get_apply_section, Hget by assumption.
    apply not_null_true in Hv. rewrite Hv. split; [reflexivity|]. now intros ->. }
  assert (Hlast : forall (o : obj) (k : string) (v : json),
            decisive o k v -> k = "jobtitle" \/ k = "jobTitle" ->
            get_prop "jobTitle" (normalizeFieldNames o) = Some v).
  { intros o k v Hdec Hk.
    assert (Hn : normalizedKey k = "jobTitle") by (destruct Hk as [->| ->]; reflexivity).
    rewrite <- Hn. apply get_normalized_decisive; [exact Hdec|].
    destruct Hk as [->| ->]; discriminate. }
  split; [split; [reflexivity | exact normalizedKey_other]|].
  split; [exact get_normalized_legacy|].
  split; [exact Hlast|].
  split.
  { intros o v Ho Hget Hnot. now rewrite get_normalized_from_legacy. }
  split.
  { intros o k Ho Hk Hproto. split.
    - intros Hin.
      destruct (in_dec String.string_dec k (own_keys (normalizeFieldNames o)))
        as [H|H]; [exact H|].
      apply get_prop_None in H. rewrite get_normalizeFieldNames in H by assumption.
      apply get_prop_None in H. exfalso. apply H.
      unfold own_keys in *. rewrite <- map_rev, map_map.
      apply in_map_iff in Hin as [kv [<- Hin]].
      apply in_map_iff. exists kv. split; [|now apply -> in_rev].
      simpl. now apply normalizedKey_other.
    - intros Hk'. now apply get_normalized_other. }
  split; [exact normalizeFieldNames_no_legacy|].
  split.
  { intros data ov i speaker o k v Hnth Hs Hfound Hdec Hk Hv.
    unfold override_of in Hfound.
    destruct (MeetupDataOverride.speakers ov) as [m|] eqn:Hm; [|discriminate].
    exists (apply_speaker m speaker). split.
    - simpl. rewrite Hm. now apply map_nth_error.
    - rewrite !get_apply_speaker, Hfound by assumption.
      rewrite (Hlast o k v Hdec Hk), get_normalized_legacy.
      apply not_null_true in Hv. now rewrite Hv. }
  split.
  { intros data ov o v Hd Hm Ho Hget Hv. simpl. rewrite Hm. now apply Hsection. }
  intros data ov s o v Hs Hobj Hm Ho Hget Hv. simpl. rewrite Hm, Hs.
  eexists. split; [reflexivity|]. now apply Hsection.
Qed.

(** The specification's example, obtained from [key_normalization]:
    [{"A": {jobtitle: "Eng"}}] gives speaker A the [jobTitle] "Eng" and no
    literal [jobtitle]; the same key in the meetup section stays [jobtitle]. *)
Lemma key_normalization_witness :
  (exists merged,
     nth_error
       (MeetupData.speakers (applyOverrides Fixture.data (Some Fixture.legacy_override)))
       0 = Some merged
     /\ get_prop "jobTitle" merged = Some (JStr "Eng")
     /\ get_prop "jobtitle" merged = None)
  /\ get_prop "jobtitle"
       (MeetupData.meetup (applyOverrides Fixture.data (Some Fixture.sponsor_override)))
     = Some (JStr "Host").
Proof.
  destruct key_normalization as (_ & _ & _ & _ & _ & _ & Hspeaker & Hmeetup & _).
  split.
  - apply (Hspeaker Fixture.data Fixture.legacy_override 0%nat Fixture.speakerA
             [("jobtitle", JStr "Eng")] "jobtitle" (JStr "Eng")).
    + reflexivity.
    + object_tac.
    + reflexivity.
    + apply decisive_single.
    + now left.
    + discriminate.
  - apply (Hmeetup Fixture.data Fixture.sponsor_override
             [("jobtitle", JStr "Host"); ("title", JNull)] (JStr "Host")).
    + object_tac.
    + reflexivity.
    + object_tac.
    + reflexivity.
    + discriminate.
Defined.

(** C3 as stated fails where a speaker override spells the job title both
    ways. Under [{jobTitle: "Staff Engineer", jobtitle: "Eng"}] the key
    [jobTitle], which is not the legacy key, does not pass through
    unchanged: the normalized override holds the legacy entry's value under
    it. Under [{jobtitle: "Eng", jobTitle: "Staff Engineer"}] the rewritten
    legacy entry does not reach the speaker: the merged [jobTitle] is the
    one of the canonical entry that follows it. *)
Lemma key_normalization_counterexample :
  (is_object Fixture.clash_both
   /\ get_prop "jobTitle" Fixture.clash_both = Some (JStr "Staff Engineer")
   /\ "jobTitle" <> "jobtitle"
   /\ normalizeFieldNames Fixture.clash_both = [ ("jobTitle", JStr "Eng") ]
   /\ JStr "Eng" <> JStr "Staff Engineer")
  /\ (is_object Fixture.legacy_first
      /\ get_prop "jobtitle" Fixture.legacy_first = Some (JStr "Eng")
      /\ exists merged,
           nth_error
             (MeetupData.speakers
                (applyOverrides Fixture.data
                   (Some (Fixture.for_speakers [("A", Fixture.legacy_first)]))))
             0 = Some merged
           /\ get_prop "jobTitle" merged = Some (JStr "Staff Engineer")
           /\ JStr "Staff Engineer" <> JStr "Eng").
Proof.
  split.
  - split; [object_tac|]. split; [reflexivity|]. split; [discriminate|].
    split; [reflexivity | discriminate].
  - split; [object_tac|]. split; [reflexivity|].
    eexists. split; [reflexivity|]. split; [reflexivity | discriminate].
Qed.

(** ** Avatars *)

Lemma speaker_entry_is_object sessionData speaker :
  is_object (speaker_entry sessionData speaker).
Proof. object_tac. Qed.

Lemma speaker_entry_consistent sessionData speaker :
  avatar_consistent (speaker_entry sessionData speaker).
Proof.
  unfold avatar_consistent, speaker_entry. cbn [get_prop].
  change (String.eqb "githubUsername" "name") with false.
  change (String.eqb "githubUsername" "talkTitle") with false.
  change (String.eqb "githubUsername" "githubUsername") with true.
  change (String.eqb "githubAvatar" "name") with false.
  change (String.eqb "githubAvatar" "talkTitle") with false.
  change (String.eqb "githubAvatar" "githubUsername") with false.
  change (String.eqb "githubAvatar" "githubAvatar") with true.
  cbv iota. unfold or_null, getGithubAvatar.
  destruct (Speaker.github_account speaker) as [account|]; [|exact I].
  destruct (String.eqb account "") eqn:E; [exact I|].
  cbn [of_nullable]. rewrite E. reflexivity.
Qed.

Lemma Extracted_entries sessions entries :
  Extracted sessions entries ->
  Forall (fun entry => exists sessionData speaker,
                         entry = speaker_entry sessionData speaker) entries.
Proof. induction 1; [constructor | assumption | assumption | constructor; eauto]. Qed.

(** A key that no override sets to a non-null value is read as before. *)
Lemma apply_speaker_keeps k (overrides : dict obj) (speaker : obj) :
  is_object speaker ->
  k <> "jobTitle" ->
  (forall name o v, In (name, o) overrides -> In (k, v) o -> v = JNull) ->
  get_prop k (apply_speaker overrides speaker) = get_prop k speaker.
Proof.
  intros Hs Hk Hnull. rewrite get_apply_speaker by assumption.
  destruct (get_prop _ overrides) as [o|] eqn:Hfound; [|reflexivity].
  apply get_prop_In in Hfound.
  destruct (get_prop k (normalizeFieldNames o)) as [v|] eqn:Hget; [|reflexivity].
  apply get_prop_In, In_normalizeFieldNames in Hget as [k0 [Hin Hk0]].
  assert (k0 = k) as ->.
  { unfold normalizedKey in Hk0.
    destruct (String.eqb k0 "jobtitle"); congruence. }
  now rewrite (Hnull _ _ _ Hfound Hin).
Qed.

(** C5, as amended. Every speaker of the extracted data has a null avatar
    exactly when the username is null, and otherwise the avatar is the
    GitHub template applied to the username; merging keeps this for every
    speaker as long as no speaker override gives [githubUsername] or
    [githubAvatar] a non-null value. *)
Theorem avatar_consistency (meetup : Meetup.t) :
  exists data,
    extractMeetupData meetup = Return data
    /\ Forall avatar_consistent (MeetupData.speakers data)
    /\ (forall ov,
          keeps_github_fields ov ->
          Forall avatar_consistent
            (MeetupData.speakers (applyOverrides data (Some ov))))
    /\ applyOverrides data None = data.
Proof.
  unfold extractMeetupData.
  destruct (extractSpeakers_Extracted (Meetup.sessions meetup)) as [entries [Hrun Hspec]].
  rewrite Hrun. simpl. eexists. split; [reflexivity|]. simpl.
  apply Extracted_entries in Hspec.
  assert (Hcons : Forall avatar_consistent entries).
  { eapply List.Forall_impl; [|exact Hspec].
    intros entry (sd & sp & ->). apply speaker_entry_consistent. }
  split; [exact Hcons|]. split; [|reflexivity].
  intros ov Hkeeps.
  destruct (MeetupDataOverride.speakers ov) as [m|] eqn:Hm; [|exact Hcons].
  clear Hcons Hrun.
  induction Hspec as [|entry rest (sd & sp & ->) _ IH]; simpl; [constructor|].
  constructor; [|exact IH].
  pose proof (speaker_entry_consistent sd sp) as Hc.
  unfold avatar_consistent in *.
  rewrite !apply_speaker_keeps; try assumption; try discriminate;
    try apply speaker_entry_is_object.
  - intros name o v Hin Hkv. apply (Hkeeps m name o "githubAvatar" v); auto.
  - intros name o v Hin Hkv. apply (Hkeeps m name o "githubUsername" v); auto.
Qed.

(** Instance: the fixture meetup under [{"A": {company: "Acme"}}], which
    names neither GitHub field. *)
Lemma avatar_consistency_witness :
  keeps_github_fields Fixture.company_override
  /\ exists data,
       extractMeetupData Fixture.meetup42 = Return data
       /\ Forall avatar_consistent
            (MeetupData.speakers (applyOverrides data (Some Fixture.company_override))).
Proof.
  assert (Hk : keeps_github_fields Fixture.company_override).
  { intros m name o k v Hm Hin Hkv Hor. injection Hm as <-.
    destruct Hin as [Hin|[]]. injection Hin as <- <-.
    destruct Hkv as [Hkv|[]]. injection Hkv as <- <-.
    destruct Hor as [Hor|Hor]; discriminate Hor. }
  split; [exact Hk|].
  destruct (avatar_consistency Fixture.meetup42) as (data & Hrun & _ & Hmerge & _).
  exists data. split; [exact Hrun | exact (Hmerge _ Hk)].
Defined.

(** C5 as stated fails on the produced data: an override that names a
    username for Bob, whose [github_account] is empty, leaves his avatar
    null. *)
Lemma avatar_consistency_counterexample :
  exists data jane bob,
    extractMeetupData Fixture.meetup42 = Return data
    /\ MeetupData.speakers (applyOverrides data (Some Fixture.username_override))
       = [jane; bob]
    /\ get_prop "name" bob = Some (JStr "Bob")
    /\ get_prop "githubUsername" bob = Some (JStr "bobcodes")
    /\ get_prop "githubAvatar" bob = Some JNull
    /\ ~ avatar_consistent bob.
Proof.
  eexists. eexists. eexists.
  split; [reflexivity|]. split; [reflexivity|].
  repeat split. intros H. exact H.
Qed.

(** ** The override store and the run *)

Lemma slidePath_not_output index : slidePath index <> outputPath.
Proof. discriminate. Qed.

Lemma slidePath_not_override index : slidePath index <> overridePath.
Proof. discriminate. Qed.

Lemma write_slides_other path speakers :
  (forall index, slidePath index <> path) ->
  forall index (fs : FS), write_slides index speakers fs !! path = fs !! path.
Proof.
  intros Hpath. induction speakers as [|speaker rest IH]; intros index fs; simpl.
  - reflexivity.
  - rewrite IH. unfold writeFileSync. now apply lookup_insert_ne.
Qed.

Lemma generateSpeakerSlides_other path speakers (fs : FS) :
  (forall index, slidePath index <> path) -> snippetPath <> path ->
  generateSpeakerSlides speakers fs !! path = fs !! path.
Proof.
  intros Hslides Hsnippet. unfold generateSpeakerSlides, writeFileSync.
  rewrite lookup_insert_ne by assumption. now apply write_slides_other.
Qed.

Lemma extractMeetupData_total meetup :
  exists data, extractMeetupData meetup = Return data.
Proof.
  unfold extractMeetupData.
  destruct (extractSpeakers_Extracted (Meetup.sessions meetup)) as [entries [Hrun _]].
  rewrite Hrun. simpl. eauto.
Qed.

Lemma speakerTemplate_entries extraFields :
  speakerTemplate extraFields
  = assign_entries (List.map (fun field => (field, JNull)) extraFields) empty_object.
Proof.
  unfold speakerTemplate, assign_entries. generalize empty_object.
  induction extraFields as [|field rest IH]; simpl; intros acc; [reflexivity | apply IH].
Qed.

Lemma get_prop_constant {V} (c : V) k (names : list string) :
  In k names -> get_prop k (List.map (fun name => (name, c)) names) = Some c.
Proof.
  induction names as [|name rest IH]; simpl; [tauto|].
  destruct (String.eqb_spec k name) as [->|Hne]; [reflexivity|].
  intros [E|H]; [congruence | now apply IH].
Qed.

Lemma own_keys_constant {V} (c : V) (names : list string) :
  own_keys (List.map (fun name => (name, c)) names) = names.
Proof. unfold own_keys. rewrite map_map. simpl. apply map_id. Qed.

Section PlatformProperties.

Variable JSON_parse : string -> result (option MeetupDataOverride.t).
Variable JSON_stringify : json -> string.
Variable parseInt : string -> option Z.

Lemma readOverrides_missing (fs : FS) :
  fs !! overridePath = None -> readOverrides JSON_parse fs = Return None.
Proof. intros H. unfold readOverrides, existsSync. now rewrite H. Qed.

Lemma readOverrides_malformed (fs : FS) content e :
  fs !! overridePath = Some content -> JSON_parse content = Throw e ->
  readOverrides JSON_parse fs = Return None.
Proof.
  intros Hfile Hparse. unfold readOverrides, existsSync, readFileSync.
  rewrite Hfile. simpl. now rewrite Hparse.
Qed.

Lemma readOverrides_returns (fs : FS) :
  exists overrides, readOverrides JSON_parse fs = Return overrides.
Proof.
  unfold readOverrides, existsSync, readFileSync.
  destruct (fs !! overridePath) as [content|]; simpl; [|eauto].
  destruct (JSON_parse content); simpl; eauto.
Qed.

(** C7. Reading the overrides never throws. A missing override file, and a
    present one whose text [JSON.parse] rejects, both give "no overrides";
    on a malformed override file the run (for a meetup the collection holds)
    returns the extracted, unmerged data, writes exactly that to
    [meetup-data.json] and leaves the override file as it found it. *)
Theorem malformed_override_recovery :
  (forall fs : FS, exists overrides, readOverrides JSON_parse fs = Return overrides)
  /\ (forall fs : FS,
        fs !! overridePath = None -> readOverrides JSON_parse fs = Return None)
  /\ (forall (fs : FS) content e,
        fs !! overridePath = Some content -> JSON_parse content = Throw e ->
        readOverrides JSON_parse fs = Return None)
  /\ (forall config meetupsData meetup (fs : FS) content e,
        find (has_configured_id parseInt config) meetupsData = Some meetup ->
        fs !! overridePath = Some content -> JSON_parse content = Throw e ->
        exists data fs',
          extractMeetupData meetup = Return data
          /\ fetchMeetupData JSON_parse JSON_stringify parseInt config meetupsData fs
             = Return (data, fs')
          /\ fs' !! outputPath = Some (JSON_stringify (meetupData_json data))
          /\ fs' !! overridePath = Some content).
Proof.
  split; [exact readOverrides_returns|].
  split; [exact readOverrides_missing|].
  split; [exact readOverrides_malformed|].
  intros config meetupsData meetup fs content e Hfind Hfile Hparse.
  destruct (extractMeetupData_total meetup) as [data Hdata].
  unfold fetchMeetupData. rewrite Hfind, Hdata. simpl.
  assert (Hkeep : createOverrideTemplate JSON_stringify
                    (speaker_names (MeetupData.speakers data))
                    (Config.speakerExtraFields config) fs = fs).
  { unfold createOverrideTemplate, existsSync. now rewrite Hfile. }
  rewrite Hkeep, (readOverrides_malformed fs content e Hfile Hparse). simpl.
  eexists. eexists. split; [reflexivity|]. split; [reflexivity|].
  split.
  - rewrite generateSpeakerSlides_other;
      [| exact slidePath_not_output | discriminate].
    unfold writeFileSync. apply lookup_insert_eq.
  - rewrite generateSpeakerSlides_other;
      [| exact slidePath_not_override | discriminate].
    unfold writeFileSync. rewrite lookup_insert_ne by discriminate. exact Hfile.
Qed.

End PlatformProperties.

Section TemplateProperties.

Variable JSON_stringify : json -> string.

(** C8. When a file is present at the override path, whatever its content,
    [createOverrideTemplate] returns the file system as it was. Only when
    none is present does it write, and only that path. For speaker names
    and extra fields other than [__proto__] the scaffold is the one of the
    specification: an empty meetup section, an empty sponsor section, and a
    speakers section whose keys are the speaker names, each bound to an
    object whose keys are the configured extra fields, all null. The
    assignments that build it lose the name [__proto__]: a speaker of that
    name gets no entry, and an extra field of that name is not in the
    entries. *)
Theorem template_preservation :
  (forall speakers extraFields (fs : FS) content,
     fs !! overridePath = Some content ->
     createOverrideTemplate JSON_stringify speakers extraFields fs = fs)
  /\ (forall speakers extraFields (fs : FS),
        fs !! overridePath = None ->
        createOverrideTemplate JSON_stringify speakers extraFields fs
        = <[overridePath := JSON_stringify (overrideTemplate speakers extraFields)]> fs)
  /\ (forall speakers extraFields,
        ~ In "__proto__" speakers -> ~ In "__proto__" extraFields ->
        exists entries scaffold,
          overrideTemplate speakers extraFields
          = JObj [ ("meetup", JObj []); ("speakers", JObj entries); ("sponsor", JObj []) ]
          /\ is_object entries
          /\ (forall name, In name (own_keys entries) <-> In name speakers)
          /\ (forall name,
                In name speakers -> get_prop name entries = Some (JObj scaffold))
          /\ is_object scaffold
          /\ (forall field, In field (own_keys scaffold) <-> In field extraFields)
          /\ all_null scaffold)
  /\ overrideTemplate ["Jane"; "__proto__"] ["company"]
     = JObj [ ("meetup", JObj []);
              ("speakers", JObj [ ("Jane", JObj [ ("company", JNull) ]) ]);
              ("sponsor", JObj []) ]
  /\ overrideTemplate ["Jane"] ["__proto__"; "company"]
     = JObj [ ("meetup", JObj []);
              ("speakers", JObj [ ("Jane", JObj [ ("company", JNull) ]) ]);
              ("sponsor", JObj []) ].
Proof.
  split.
  { intros speakers extraFields fs content Hfile.
    unfold createOverrideTemplate, existsSync. now rewrite Hfile. }
  split.
  { intros speakers extraFields fs Hfile.
    unfold createOverrideTemplate, existsSync. now rewrite Hfile. }
  split; [|split; reflexivity].
  intros speakers extraFields Hnames Hfields.
  set (scaffold := copy_props (List.map (fun field => (field, JNull)) extraFields) []).
  assert (Htemplate : props (speakerTemplate extraFields) = scaffold).
  { rewrite speakerTemplate_entries. apply assign_entries_plain.
    now rewrite own_keys_constant. }
  assert (Hscaffold : is_object scaffold).
  { apply copy_props_is_object. constructor. }
  assert (Hentries :
    props
      (fold_left
         (fun acc name =>
            assign name (JObj (copy_props (props (speakerTemplate extraFields)) [])) acc)
         speakers empty_object)
    = copy_props (List.map (fun name => (name, JObj scaffold)) speakers) []).
  { rewrite Htemplate, (copy_props_nil scaffold Hscaffold).
    rewrite <- (assign_entries_plain _ empty_object)
      by now rewrite own_keys_constant.
    unfold assign_entries. f_equal. generalize empty_object.
    clear Hnames. induction speakers as [|name rest IH]; simpl; intros acc;
      [reflexivity | apply IH]. }
  exists (copy_props (List.map (fun name => (name, JObj scaffold)) speakers) []), scaffold.
  split; [unfold overrideTemplate; now rewrite Hentries|].
  split; [apply copy_props_is_object; constructor|].
  split.
  { intros name. rewrite In_own_keys_copy_props, own_keys_constant. simpl. tauto. }
  split.
  { intros name Hin. rewrite get_copy_props, <- map_rev.
    rewrite get_prop_constant; [reflexivity | now apply -> in_rev]. }
  split; [exact Hscaffold|].
  split.
  { intros field. unfold scaffold.
    rewrite In_own_keys_copy_props, own_keys_constant. simpl. tauto. }
  unfold all_null, scaffold.
  apply List.Forall_forall. intros kv Hin.
  apply In_copy_props in Hin as [Hin|[]].
  apply in_map_iff in Hin as [field [<- _]]. reflexivity.
Qed.

End TemplateProperties.

(** ** Instances on the fixtures *)

(** The specification's end-to-end meetup: Jane and Bob are extracted, the
    session without speaker is not. *)
Lemma session_filter_invariant_witness :
  exists data,
    extractMeetupData Fixture.meetup42 = Return data
    /\ Extracted (Meetup.sessions Fixture.meetup42) (MeetupData.speakers data)
    /\ length (MeetupData.speakers data) = 2.
Proof.
  destruct (session_filter_invariant Fixture.meetup42)
    as (data & Hrun & _ & Hspec & Hlen & _).
  exists data. split; [exact Hrun|]. split; [exact Hspec | exact Hlen].
Defined.

(** The sponsor without logo: name "Acme", logo null. *)
Lemma sponsor_extraction_witness :
  exists data,
    extractMeetupData Fixture.meetup42 = Return data
    /\ MeetupData.sponsor data = Some [ ("name", JStr "Acme"); ("logo", JNull) ].
Proof.
  destruct sponsor_extraction as (_ & _ & _ & _ & Hrun).
  destruct (Hrun Fixture.meetup42) as (data & Hdata & Hsponsor).
  exists data. split; [exact Hdata | exact Hsponsor].
Defined.

(** Bob's [github_account] is the empty string. *)
Lemma empty_github_account_witness :
  exists data entries1 entry entries2,
    extractMeetupData Fixture.meetup42 = Return data
    /\ MeetupData.speakers data = (entries1 ++ entry :: entries2)%list
    /\ extractSpeakers [Fixture.session_of 1 "Grids" (Some Fixture.jane);
                        Fixture.session_of 2 "Break" None] = Return entries1
    /\ extractSpeakers [] = Return entries2
    /\ get_prop "name" entry = Some (JStr "Bob")
    /\ get_prop "githubUsername" entry = Some JNull
    /\ get_prop "githubAvatar" entry = Some JNull.
Proof.
  exact (empty_github_account_is_no_username Fixture.meetup42
           [Fixture.session_of 1 "Grids" (Some Fixture.jane);
            Fixture.session_of 2 "Break" None]
           []
           (Fixture.session_of 3 "Nesting" (Some Fixture.bob))
           {| SessionData.title := "Nesting"; SessionData.speakers := Some Fixture.bob |}
           Fixture.bob eq_refl eq_refl eq_refl eq_refl).
Defined.

(** A sponsor override on data without sponsor. *)
Lemma null_sponsor_stays_null_witness :
  MeetupData.sponsor Fixture.data = None
  /\ MeetupData.sponsor (applyOverrides Fixture.data (Some Fixture.sponsor_override)) = None.
Proof.
  split; [reflexivity|].
  exact (null_sponsor_stays_null Fixture.data (Some Fixture.sponsor_override) eq_refl).
Defined.

(** A document of null sentinels over data with a sponsor. *)
Lemma null_overrides_change_nothing_witness :
  null_only Fixture.nulls
  /\ applyOverrides Fixture.sponsored (Some Fixture.nulls) = Fixture.sponsored.
Proof.
  assert (H : null_only Fixture.nulls).
  { unfold null_only, all_null. repeat split.
    - intros o E. injection E as <-. repeat constructor.
    - intros m E. injection E as <-. repeat constructor.
    - intros o E. injection E as <-. repeat constructor. }
  split; [exact H|].
  exact (null_overrides_change_nothing Fixture.sponsored Fixture.nulls H).
Defined.

(** A run over the override file with a trailing comma. *)
Lemma malformed_override_recovery_witness :
  readOverrides Fixture.parse Fixture.broken_fs = Return None
  /\ exists data fs',
       extractMeetupData Fixture.meetup42 = Return data
       /\ fetchMeetupData Fixture.parse Fixture.print Fixture.parse_id Fixture.config
            [Fixture.meetup42] Fixture.broken_fs
          = Return (data, fs')
       /\ fs' !! outputPath = Some (Fixture.print (meetupData_json data))
       /\ fs' !! overridePath = Some "{ meetup: {}, }".
Proof.
  destruct (malformed_override_recovery Fixture.parse Fixture.print Fixture.parse_id)
    as (_ & _ & Hread & Hrun).
  split.
  - exact (Hread Fixture.broken_fs "{ meetup: {}, }"
             (SyntaxError "Unexpected token") eq_refl eq_refl).
  - exact (Hrun Fixture.config [Fixture.meetup42] Fixture.meetup42 Fixture.broken_fs
             "{ meetup: {}, }" (SyntaxError "Unexpected token")
             eq_refl eq_refl eq_refl).
Defined.

(** An override file that is present is kept; in an empty directory the
    scaffold is written. *)
Lemma template_preservation_witness :
  createOverrideTemplate Fixture.print ["Jane"; "Bob"] ["company"; "jobtitle"]
    Fixture.broken_fs = Fixture.broken_fs
  /\ createOverrideTemplate Fixture.print ["Jane"; "Bob"] ["company"; "jobtitle"] ∅
     = <[overridePath :=
           Fixture.print (overrideTemplate ["Jane"; "Bob"] ["company"; "jobtitle"])]> ∅.
Proof.
  destruct (template_preservation Fixture.print) as (Hkeep & Hwrite & _).
  split.
  - exact (Hkeep ["Jane"; "Bob"] ["company"; "jobtitle"] Fixture.broken_fs
             "{ meetup: {}, }" eq_refl).
  - exact (Hwrite ["Jane"; "Bob"] ["company"; "jobtitle"] ∅ eq_refl).
Defined.

(** * Further properties of the script *)

(** ** Slide files *)

Lemma to_uint_nonnil n : Nat.to_uint n <> Decimal.Nil.
Proof.
  rewrite <- (DecimalNat.Unsigned.of_to n) at 1.
  rewrite DecimalNat.Unsigned.to_of. apply DecimalFacts.unorm_nonnil.
Qed.

Lemma string_of_nat_inj a b : string_of_nat a = string_of_nat b -> a = b.
Proof.
  unfold string_of_nat. intros H.
  apply DecimalNat.Unsigned.to_uint_inj.
  assert (Ha := NilZero.usu _ (to_uint_nonnil a)).
  assert (Hb := NilZero.usu _ (to_uint_nonnil b)).
  rewrite H in Ha. congruence.
Qed.

Lemma append_inj_l (p s t : string) : p ++ s = p ++ t -> s = t.
Proof. induction p as [|c p IH]; simpl; [trivial|]. intros [= H]. now apply IH. Qed.

Lemma append_length (s t : string) :
  String.length (s ++ t) = String.length s + String.length t.
Proof. induction s as [|c s IH]; simpl; [reflexivity | now rewrite IH]. Qed.

Lemma append_inj_r (s t q : string) : s ++ q = t ++ q -> s = t.
Proof.
  revert t. induction s as [|c s IH]; intros [|d t] H; simpl in *.
  - reflexivity.
  - exfalso. apply (f_equal String.length) in H.
    rewrite !append_length in H. simpl in H. lia.
  - exfalso. apply (f_equal String.length) in H.
    rewrite !append_length in H. simpl in H. lia.
  - injection H as -> H. f_equal. now apply IH.
Qed.

Lemma slidePath_inj i j : slidePath i = slidePath j -> i = j.
Proof.
  unfold slidePath. intros H.
  apply append_inj_l, append_inj_r, string_of_nat_inj in H. lia.
Qed.

Lemma slidePath_not_snippet index : slidePath index <> snippetPath.
Proof. discriminate. Qed.

(** The loop writes nothing outside the slide paths of the positions it visits. *)
Lemma write_slides_frame path speakers :
  forall start (fs : FS),
    (forall i, i < length speakers -> slidePath (start + i) <> path) ->
    write_slides start speakers fs !! path = fs !! path.
Proof.
  induction speakers as [|speaker rest IH]; intros start fs Hpath; simpl.
  - reflexivity.
  - rewrite IH.
    + unfold writeFileSync. apply lookup_insert_ne.
      specialize (Hpath 0). rewrite Nat.add_0_r in Hpath. apply Hpath. simpl. lia.
    + intros i Hi. replace (S start + i) with (start + S i) by lia.
      apply Hpath. simpl. lia.
Qed.

Lemma write_slides_lookup speakers :
  forall start (fs : FS) i speaker,
    nth_error speakers i = Some speaker ->
    write_slides start speakers fs !! slidePath (start + i)
    = Some (generateSpeakerSlide speaker).
Proof.
  induction speakers as [|first rest IH]; intros start fs i speaker Hnth.
  - destruct i; discriminate.
  - destruct i as [|i]; simpl in *.
    + injection Hnth as ->. rewrite Nat.add_0_r. rewrite write_slides_frame.
      * unfold writeFileSync. apply lookup_insert_eq.
      * intros i _ H. apply slidePath_inj in H. lia.
    + replace (start + S i) with (S start + i) by lia. now apply IH.
Qed.

Lemma generateSpeakerSlides_slide speakers (fs : FS) i speaker :
  nth_error speakers i = Some speaker ->
  generateSpeakerSlides speakers fs !! slidePath i = Some (generateSpeakerSlide speaker).
Proof.
  intros Hnth. unfold generateSpeakerSlides, writeFileSync.
  rewrite lookup_insert_ne
    by (intros H; symmetry in H; now apply slidePath_not_snippet in H).
  now apply (write_slides_lookup speakers 0).
Qed.

Lemma generateSpeakerSlides_snippet speakers (fs : FS) :
  generateSpeakerSlides speakers fs !! snippetPath
  = Some (String.concat (newline ++ newline)
            (List.map slideReference (seq 0 (length speakers)))).
Proof. unfold generateSpeakerSlides, writeFileSync. apply lookup_insert_eq. Qed.

Lemma generateSpeakerSlides_frame speakers (fs : FS) path :
  path <> snippetPath ->
  (forall i, i < length speakers -> path <> slidePath i) ->
  generateSpeakerSlides speakers fs !! path = fs !! path.
Proof.
  intros Hsnippet Hslide. unfold generateSpeakerSlides, writeFileSync.
  rewrite lookup_insert_ne by congruence.
  apply write_slides_frame. intros j Hj H. now apply (Hslide (0 + j)).
Qed.

(** X1. [generateSpeakerSlides] writes, for every position [i] of the
    speaker list, the slide of the speaker at [i] to the file numbered
    [i + 1], and the reference list to the snippet file; a slide file whose
    number exceeds the number of speakers, and every file that is neither a
    slide file nor the snippet file, is left exactly as it was: slides of
    speakers dropped since an earlier run are never removed. *)
Theorem slides_written_and_stale_kept (speakers : list obj) (fs : FS) :
  (forall i speaker,
     nth_error speakers i = Some speaker ->
     generateSpeakerSlides speakers fs !! slidePath i
     = Some (generateSpeakerSlide speaker))
  /\ generateSpeakerSlides speakers fs !! snippetPath
     = Some (String.concat (newline ++ newline)
               (List.map slideReference (seq 0 (length speakers))))
  /\ (forall i,
        length speakers <= i ->
        generateSpeakerSlides speakers fs !! slidePath i = fs !! slidePath i)
  /\ (forall path,
        path <> snippetPath -> (forall i, path <> slidePath i) ->
        generateSpeakerSlides speakers fs !! path = fs !! path).
Proof.
  split; [intros i speaker; apply generateSpeakerSlides_slide|].
  split; [apply generateSpeakerSlides_snippet|].
  split.
  - intros i Hi. apply generateSpeakerSlides_frame.
    + apply slidePath_not_snippet.
    + intros j Hj H. apply slidePath_inj in H. lia.
  - intros path Hsnippet Hslide. apply generateSpeakerSlides_frame; auto.
Qed.

(** One speaker, over a directory that still holds a second slide. *)
Lemma slides_written_and_stale_kept_witness :
  generateSpeakerSlides [Fixture.speakerA]
    {[ slidePath 1 := "stale"; outputPath := "{}" ]} !! slidePath 0
  = Some (generateSpeakerSlide Fixture.speakerA)
  /\ generateSpeakerSlides [Fixture.speakerA]
       {[ slidePath 1 := "stale"; outputPath := "{}" ]} !! slidePath 1
     = Some "stale".
Proof.
  destruct (slides_written_and_stale_kept [Fixture.speakerA]
              {[ slidePath 1 := "stale"; outputPath := "{}" ]})
    as (Hslide & _ & Hstale & _).
  split.
  - exact (Hslide 0 Fixture.speakerA eq_refl).
  - rewrite (Hstale 1 (le_n 1)). reflexivity.
Defined.

(** X2. The slide of a speaker as extraction builds it: between the two
    rules stand the layout, name and talk title lines in that order, with
    the [image] line (the avatar URL) after the layout and the [github] line
    after the talk title exactly when the speaker's [github_account] is a
    non-empty string; no company or job title line is written. *)
Theorem slide_of_extracted_speaker (sessionData : SessionData.t) (speaker : Speaker.t) :
  generateSpeakerSlide (speaker_entry sessionData speaker) =
  "---" ++ newline
  ++ String.concat newline
       match or_null (Speaker.github_account speaker) with
       | Some u =>
           [ "layout: speaker-intro";
             "image: https://github.com/" ++ u ++ ".png";
             "name: " ++ Speaker.name speaker;
             "talkTitle: " ++ SessionData.title sessionData;
             "github: " ++ u ]
       | None =>
           [ "layout: speaker-intro";
             "name: " ++ Speaker.name speaker;
             "talkTitle: " ++ SessionData.title sessionData ]
       end
  ++ newline ++ "---" ++ newline.
Proof.
  destruct speaker as [id name account]. destruct sessionData as [title nested].
  destruct account as [[|c account]|]; try reflexivity.
Qed.

(** X3. The slide of a speaker is determined by six of its properties:
    the name and the talk title as printed, and each of [githubAvatar],
    [githubUsername], [company] and [jobTitle] as far as it is truthy. Two
    speakers that agree on these have the same slide, so a [bio], any other
    extra field, and the difference between an absent, null or empty
    optional field never reach the slide. *)
Theorem slide_reads_six_fields (a b : obj) :
  ToString_opt (get_prop "name" a) = ToString_opt (get_prop "name" b) ->
  ToString_opt (get_prop "talkTitle" a) = ToString_opt (get_prop "talkTitle" b) ->
  (forall key,
     In key ["githubAvatar"; "githubUsername"; "company"; "jobTitle"] ->
     truthy (get_prop key a) = truthy (get_prop key b)
     /\ (truthy (get_prop key a) = true ->
         ToString_opt (get_prop key a) = ToString_opt (get_prop key b))) ->
  generateSpeakerSlide a = generateSpeakerSlide b.
Proof.
  intros Hname Htitle Hopt. unfold generateSpeakerSlide.
  rewrite Hname, Htitle.
  assert (Hfield : forall label key,
            In key ["githubAvatar"; "githubUsername"; "company"; "jobTitle"] ->
            (if truthy (get_prop key a)
             then label ++ ToString_opt (get_prop key a) else "")
            = (if truthy (get_prop key b)
               then label ++ ToString_opt (get_prop key b) else "")).
  { intros label key Hin. destruct (Hopt key Hin) as [Ht Hv]. rewrite <- Ht.
    destruct (truthy (get_prop key a)); [now rewrite Hv | reflexivity]. }
  rewrite (Hfield "image: " "githubAvatar") by (simpl; tauto).
  rewrite (Hfield "github: " "githubUsername") by (simpl; tauto).
  rewrite (Hfield "company: " "company") by (simpl; tauto).
  rewrite (Hfield "jobTitle: " "jobTitle") by (simpl; tauto).
  reflexivity.
Qed.

(** A speaker with a [bio] and an empty [company] has the slide of the
    speaker without them. *)
Lemma slide_reads_six_fields_witness :
  generateSpeakerSlide
    [ ("name", JStr "A"); ("talkTitle", JStr "T"); ("company", JStr "");
      ("bio", JStr "Writes CSS.") ]
  = generateSpeakerSlide [ ("name", JStr "A"); ("talkTitle", JStr "T") ].
Proof.
  apply slide_reads_six_fields; [reflexivity | reflexivity |].
  intros key [<-|[<-|[<-|[<-|[]]]]]; split; solve [reflexivity | discriminate].
Defined.

(** ** Runs *)

Section RunProperties.

Variable JSON_parse : string -> result (option MeetupDataOverride.t).
Variable JSON_stringify : json -> string.
Variable parseInt : string -> option Z.

Lemma readOverrides_reads_one_file (fs1 fs2 : FS) :
  fs1 !! overridePath = fs2 !! overridePath ->
  readOverrides JSON_parse fs1 = readOverrides JSON_parse fs2.
Proof.
  intros H. unfold readOverrides, existsSync, readFileSync. now rewrite H.
Qed.

Lemma createOverrideTemplate_override speakers extraFields (fs : FS) :
  createOverrideTemplate JSON_stringify speakers extraFields fs !! overridePath
  = match fs !! overridePath with
    | Some content => Some content
    | None => Some (JSON_stringify (overrideTemplate speakers extraFields))
    end.
Proof.
  unfold createOverrideTemplate, existsSync, writeFileSync.
  destruct (fs !! overridePath) as [content|] eqn:E; [exact E|].
  apply lookup_insert_eq.
Qed.

Lemma createOverrideTemplate_present speakers extraFields (fs : FS) content :
  fs !! overridePath = Some content ->
  createOverrideTemplate JSON_stringify speakers extraFields fs = fs.
Proof. intros H. unfold createOverrideTemplate, existsSync. now rewrite H. Qed.

Lemma createOverrideTemplate_frame speakers extraFields (fs : FS) path :
  path <> overridePath ->
  createOverrideTemplate JSON_stringify speakers extraFields fs !! path = fs !! path.
Proof.
  intros H. unfold createOverrideTemplate, writeFileSync.
  destruct (existsSync overridePath fs); [reflexivity|].
  now apply lookup_insert_ne.
Qed.

Lemma write_slides_fixed speakers :
  forall start (fs : FS),
    (forall i speaker,
       nth_error speakers i = Some speaker ->
       fs !! slidePath (start + i) = Some (generateSpeakerSlide speaker)) ->
    write_slides start speakers fs = fs.
Proof.
  induction speakers as [|first rest IH]; intros start fs H; simpl; [reflexivity|].
  unfold writeFileSync. rewrite insert_id.
  - apply IH. intros i speaker Hnth.
    replace (S start + i) with (start + S i) by lia. now apply H.
  - specialize (H 0 first eq_refl). now rewrite Nat.add_0_r in H.
Qed.

Lemma generateSpeakerSlides_fixed speakers (fs : FS) :
  generateSpeakerSlides speakers (generateSpeakerSlides speakers fs)
  = generateSpeakerSlides speakers fs.
Proof.
  set (fs' := generateSpeakerSlides speakers fs).
  unfold generateSpeakerSlides at 1. unfold writeFileSync.
  rewrite write_slides_fixed.
  - apply insert_id. apply generateSpeakerSlides_snippet.
  - intros i speaker Hnth. now apply generateSpeakerSlides_slide.
Qed.

(** What a run that found its meetup returns, step by step. *)
Lemma fetchMeetupData_found config meetupsData meetup (fs : FS) :
  find (has_configured_id parseInt config) meetupsData = Some meetup ->
  exists data overrides,
    extractMeetupData meetup = Return data
    /\ readOverrides JSON_parse
         (createOverrideTemplate JSON_stringify
            (speaker_names (MeetupData.speakers data))
            (Config.speakerExtraFields config) fs)
       = Return overrides
    /\ fetchMeetupData JSON_parse JSON_stringify parseInt config meetupsData fs
       = Return
           (applyOverrides data overrides,
            generateSpeakerSlides (MeetupData.speakers (applyOverrides data overrides))
              (writeFileSync outputPath
                 (JSON_stringify (meetupData_json (applyOverrides data overrides)))
                 (createOverrideTemplate JSON_stringify
                    (speaker_names (MeetupData.speakers data))
                    (Config.speakerExtraFields config) fs))).
Proof.
  intros Hfind. destruct (extractMeetupData_total meetup) as [data Hdata].
  destruct (readOverrides_returns JSON_parse
              (createOverrideTemplate JSON_stringify
                 (speaker_names (MeetupData.speakers data))
                 (Config.speakerExtraFields config) fs)) as [overrides Hread].
  exists data, overrides. split; [exact Hdata|]. split; [exact Hread|].
  unfold fetchMeetupData. rewrite Hfind, Hdata. simpl. now rewrite Hread.
Qed.


(** X5. Running again changes nothing: a second run over the directory the
    first one left returns the same data and leaves every file as it is. *)
Theorem rerun_is_idempotent
    (config : Config.t) (meetupsData : list Meetup.t) (fs fs' : FS)
    (data : MeetupData.t) :
  fetchMeetupData JSON_parse JSON_stringify parseInt config meetupsData fs
  = Return (data, fs') ->
  fetchMeetupData JSON_parse JSON_stringify parseInt config meetupsData fs'
  = Return (data, fs').
Proof.
  intros Hrun.
  destruct (find (has_configured_id parseInt config) meetupsData) as [meetup|] eqn:Hfind;
    [| unfold fetchMeetupData in Hrun; rewrite Hfind in Hrun; discriminate].
  destruct (fetchMeetupData_found config meetupsData meetup fs Hfind)
    as (extracted & overrides & Hdata & Hread & Hrun1).
  rewrite Hrun1 in Hrun. injection Hrun as Hmerged Hfs.
  destruct (fetchMeetupData_found config meetupsData meetup fs' Hfind)
    as (extracted2 & overrides2 & Hdata2 & Hread2 & Hrun2).
  rewrite Hdata in Hdata2. injection Hdata2 as <-.
  set (fs1 := createOverrideTemplate JSON_stringify
                (speaker_names (MeetupData.speakers extracted))
                (Config.speakerExtraFields config) fs) in *.
  assert (Hov : fs' !! overridePath = fs1 !! overridePath).
  { rewrite <- Hfs. rewrite generateSpeakerSlides_other;
      [| exact slidePath_not_override | discriminate].
    unfold writeFileSync. now rewrite lookup_insert_ne by discriminate. }
  assert (Hexists : exists content, fs1 !! overridePath = Some content).
  { unfold fs1. rewrite createOverrideTemplate_override.
    destruct (fs !! overridePath); eauto. }
  destruct Hexists as [content Hcontent].
  assert (Hkeep : createOverrideTemplate JSON_stringify
                    (speaker_names (MeetupData.speakers extracted))
                    (Config.speakerExtraFields config) fs' = fs').
  { apply (createOverrideTemplate_present _ _ _ content). congruence. }
  rewrite Hkeep in Hread2, Hrun2.
  rewrite (readOverrides_reads_one_file fs' fs1 Hov), Hread in Hread2.
  injection Hread2 as <-. rewrite Hmerged in Hrun2. rewrite Hrun2.
  f_equal. f_equal.
  assert (Hout : writeFileSync outputPath (JSON_stringify (meetupData_json data)) fs' = fs').
  { unfold writeFileSync. apply insert_id. rewrite <- Hfs, Hmerged.
    rewrite generateSpeakerSlides_other;
      [| exact slidePath_not_output | discriminate].
    unfold writeFileSync. apply lookup_insert_eq. }
  rewrite Hout. rewrite <- Hfs at 1. rewrite Hmerged.
  rewrite generateSpeakerSlides_fixed. now rewrite <- Hmerged.
Qed.

(** X6. A run reads one file, the override file: two directories that
    agree on it give runs that return the same data or throw the same
    error, whatever [meetup-data.json], slide files or other files of an
    earlier run they hold. *)
Theorem run_reads_only_the_override_file
    (config : Config.t) (meetupsData : list Meetup.t) (fs1 fs2 : FS) :
  fs1 !! overridePath = fs2 !! overridePath ->
  match
    fetchMeetupData JSON_parse JSON_stringify parseInt config meetupsData fs1,
    fetchMeetupData JSON_parse JSON_stringify parseInt config meetupsData fs2
  with
  | Return (data1, _), Return (data2, _) => data1 = data2
  | Throw e1, Throw e2 => e1 = e2
  | _, _ => False
  end.
Proof.
  intros Hsame.
  destruct (find (has_configured_id parseInt config) meetupsData) as [meetup|] eqn:Hfind.
  - destruct (fetchMeetupData_found config meetupsData meetup fs1 Hfind)
      as (data & ov1 & Hdata & Hread1 & Hrun1).
    destruct (fetchMeetupData_found config meetupsData meetup fs2 Hfind)
      as (data' & ov2 & Hdata' & Hread2 & Hrun2).
    rewrite Hdata in Hdata'. injection Hdata' as <-.
    rewrite Hrun1, Hrun2.
    rewrite (readOverrides_reads_one_file _
               (createOverrideTemplate JSON_stringify
                  (speaker_names (MeetupData.speakers data))
                  (Config.speakerExtraFields config) fs2)) in Hread1.
    + congruence.
    + rewrite !createOverrideTemplate_override. now rewrite Hsame.
  - unfold fetchMeetupData. now rewrite Hfind.
Qed.

End RunProperties.

(** The first run in an empty directory, and the run after it. *)
Lemma rerun_is_idempotent_witness :
  exists data fs',
    fetchMeetupData Fixture.parse Fixture.print Fixture.parse_id Fixture.config
      [Fixture.meetup42] ∅ = Return (data, fs')
    /\ fetchMeetupData Fixture.parse Fixture.print Fixture.parse_id Fixture.config
         [Fixture.meetup42] fs' = Return (data, fs').
Proof.
  destruct (fetchMeetupData_found Fixture.parse Fixture.print Fixture.parse_id
              Fixture.config [Fixture.meetup42] Fixture.meetup42 ∅ eq_refl)
    as (extracted & overrides & _ & _ & Hrun).
  eexists. eexists. split; [exact Hrun|].
  exact (rerun_is_idempotent Fixture.parse Fixture.print Fixture.parse_id
           Fixture.config [Fixture.meetup42] ∅ _ _ Hrun).
Defined.

(** A directory with an artifact of an earlier run beside the override file. *)
Lemma run_reads_only_the_override_file_witness :
  Fixture.broken_fs !! overridePath
  = (<[outputPath := "{ stale }"]> Fixture.broken_fs : FS) !! overridePath
  /\ match
       fetchMeetupData Fixture.parse Fixture.print Fixture.parse_id Fixture.config
         [Fixture.meetup42] Fixture.broken_fs,
       fetchMeetupData Fixture.parse Fixture.print Fixture.parse_id Fixture.config
         [Fixture.meetup42] (<[outputPath := "{ stale }"]> Fixture.broken_fs)
     with
     | Return (data1, _), Return (data2, _) => data1 = data2
     | Throw e1, Throw e2 => e1 = e2
     | _, _ => False
     end.
Proof.
  assert (H : Fixture.broken_fs !! overridePath
              = (<[outputPath := "{ stale }"]> Fixture.broken_fs : FS) !! overridePath).
  { symmetry. apply lookup_insert_ne. discriminate. }
  split; [exact H|].
  exact (run_reads_only_the_override_file Fixture.parse Fixture.print Fixture.parse_id
           Fixture.config [Fixture.meetup42] Fixture.broken_fs
           (<[outputPath := "{ stale }"]> Fixture.broken_fs) H).
Defined.

(** ** More on the merge *)

Lemma removeNulls_values k v (o : obj) : In (k, v) (removeNulls o) -> v <> JNull.
Proof.
  unfold removeNulls, Object_fromEntries, Object_entries. intros H.
  apply In_copy_props in H as [H|[]]. apply filter_In in H as [_ H].
  simpl in H. now apply not_null_true.
Qed.

(** Spreading a null-filtered override keeps every key of the target and
    never makes a property null. *)
Lemma merge_keeps (target override : obj) k :
  is_object target ->
  (In k (own_keys target) ->
   In k (own_keys (if has_keys (removeNulls override)
                   then spread2 target (removeNulls override) else target)))
  /\ (get_prop k (if has_keys (removeNulls override)
                  then spread2 target (removeNulls override) else target)
      = Some JNull ->
      get_prop k target = Some JNull).
Proof.
  intros Ht. destruct (has_keys (removeNulls override)); [|tauto].
  unfold spread2. split.
  - intros Hin. rewrite !In_own_keys_copy_props. tauto.
  - rewrite get_copy_props, (copy_props_nil target Ht).
    destruct (get_prop k (rev (removeNulls override))) as [v|] eqn:Hget; [|trivial].
    intros [= ->]. apply get_prop_In, in_rev, removeNulls_values in Hget.
    now destruct Hget.
Qed.

(** X7. An override cannot take anything away. For well-formed data and
    any override document, the merged data has as many speakers as the
    extracted data, in the same positions; every property of the meetup
    section, of each speaker and of the sponsor is still a property after
    the merge; and a property that is null after the merge was null before:
    no override removes a field or resets it to null. *)
Theorem merge_never_clears (data : MeetupData.t) (ov : MeetupDataOverride.t) :
  well_formed_data data ->
  (forall k,
     (In k (own_keys (MeetupData.meetup data)) ->
      In k (own_keys (MeetupData.meetup (applyOverrides data (Some ov)))))
     /\ (get_prop k (MeetupData.meetup (applyOverrides data (Some ov))) = Some JNull ->
         get_prop k (MeetupData.meetup data) = Some JNull))
  /\ Forall2
       (fun speaker merged =>
          forall k,
            (In k (own_keys speaker) -> In k (own_keys merged))
            /\ (get_prop k merged = Some JNull -> get_prop k speaker = Some JNull))
       (MeetupData.speakers data)
       (MeetupData.speakers (applyOverrides data (Some ov)))
  /\ match MeetupData.sponsor data with
     | Some s =>
         exists s',
           MeetupData.sponsor (applyOverrides data (Some ov)) = Some s'
           /\ forall k,
                (In k (own_keys s) -> In k (own_keys s'))
                /\ (get_prop k s' = Some JNull -> get_prop k s = Some JNull)
     | None => MeetupData.sponsor (applyOverrides data (Some ov)) = None
     end.
Proof.
  intros (Hm & Hs & Hp). destruct data as [meetup speakers sponsor]. simpl in *.
  split; [|split].
  - intros k. destruct (MeetupDataOverride.meetup ov) as [o|]; [|tauto].
    now apply merge_keeps.
  - destruct (MeetupDataOverride.speakers ov) as [m|].
    + induction Hs as [|speaker rest Hobj _ IH]; simpl; constructor; [|exact IH].
      intros k. unfold apply_speaker.
      destruct (get_prop _ m) as [o|]; [|tauto]. now apply merge_keeps.
    + clear Hs. induction speakers; constructor; [tauto | assumption].
  - destruct sponsor as [s|].
    + destruct (MeetupDataOverride.sponsor ov) as [o|].
      * eexists. split; [reflexivity|]. intros k. apply merge_keeps. now apply Hp.
      * exists s. split; [reflexivity | tauto].
    + now destruct (MeetupDataOverride.sponsor ov).
Qed.

(** The sponsored fixture under the sponsor override: the null logo is
    still there and still the only null. *)
Lemma merge_never_clears_witness :
  well_formed_data Fixture.sponsored
  /\ exists s',
       MeetupData.sponsor (applyOverrides Fixture.sponsored (Some Fixture.sponsor_override))
       = Some s'
       /\ In "logo" (own_keys s').
Proof.
  assert (Hwf : well_formed_data Fixture.sponsored).
  { repeat split; simpl.
    - object_tac.
    - constructor; [object_tac | constructor].
    - intros s E. injection E as <-. object_tac. }
  split; [exact Hwf|].
  destruct (merge_never_clears Fixture.sponsored Fixture.sponsor_override Hwf)
    as (_ & _ & s' & Hs' & Hkeys).
  exists s'. split; [exact Hs'|].
  apply (Hkeys "logo"). simpl. tauto.
Defined.

(** X8. Speaker overrides are found by name and by nothing else: two
    override documents whose speakers sections give the same entry for the
    name of every speaker of the data merge to the same speakers. An entry
    under any other key (a misspelt name, a list position) has no effect. *)
Theorem overrides_are_keyed_by_name_only
    (data : MeetupData.t) (ov1 ov2 : MeetupDataOverride.t) :
  (forall speaker,
     In speaker (MeetupData.speakers data) ->
     override_of ov1 speaker = override_of ov2 speaker) ->
  MeetupData.speakers (applyOverrides data (Some ov1))
  = MeetupData.speakers (applyOverrides data (Some ov2)).
Proof.
  intros Hsame.
  assert (Hmap : forall ov,
            MeetupData.speakers (applyOverrides data (Some ov))
            = List.map
                (fun speaker =>
                   match override_of ov speaker with
                   | Some override =>
                       let validOverrides := removeNulls (normalizeFieldNames override) in
                       if has_keys validOverrides
                       then spread2 speaker validOverrides else speaker
                   | None => speaker
                   end) (MeetupData.speakers data)).
  { intros ov. simpl. unfold override_of.
    destruct (MeetupDataOverride.speakers ov) as [m|]; [reflexivity|].
    now rewrite map_id. }
  rewrite !Hmap. apply map_ext_in. intros speaker Hin. now rewrite (Hsame speaker Hin).
Qed.

(** An override stored under the position of speaker A instead of the name. *)
Lemma overrides_are_keyed_by_name_only_witness :
  MeetupData.speakers
    (applyOverrides Fixture.data
       (Some (Fixture.for_speakers [ ("0", [ ("company", JStr "Acme") ]) ])))
  = MeetupData.speakers (applyOverrides Fixture.data (Some (Fixture.for_speakers []))).
Proof.
  apply overrides_are_keyed_by_name_only.
  intros speaker [<-|[]]. reflexivity.
Defined.

(** X9. When a speaker override spells the job title both ways, the entry
    that comes later in the override decides [jobTitle], whichever spelling
    it uses; when that later entry is null, the normalized override gives
    [jobTitle] the null that the filter then drops, so the earlier, non-null
    spelling is lost. *)
Theorem later_spelling_decides
    (before between after : obj) (k1 k2 : string) (v1 v2 : json) :
  is_object (before ++ (k1, v1) :: between ++ (k2, v2) :: after)%list ->
  (k1 = "jobtitle" /\ k2 = "jobTitle") \/ (k1 = "jobTitle" /\ k2 = "jobtitle") ->
  get_prop "jobTitle"
    (normalizeFieldNames (before ++ (k1, v1) :: between ++ (k2, v2) :: after)%list)
  = Some v2
  /\ get_prop "jobTitle"
       (removeNulls
          (normalizeFieldNames (before ++ (k1, v1) :: between ++ (k2, v2) :: after)%list))
     = (if not_null v2 then Some v2 else None).
Proof.
  intros Hobj Hkeys.
  assert (Hfirst : get_prop "jobTitle"
            (normalizeFieldNames (before ++ (k1, v1) :: between ++ (k2, v2) :: after)%list)
          = Some v2).
  { rewrite get_normalizeFieldNames by discriminate.
    rewrite map_app, rev_app_distr. cbn [List.map rev].
    rewrite map_app, rev_app_distr. cbn [List.map rev].
    rewrite <- !app_assoc. rewrite get_prop_app.
    rewrite get_prop_renamed_absent.
    - cbn [app get_prop rename_entry fst snd].
      assert (Hk2 : normalizedKey k2 = "jobTitle")
        by (destruct Hkeys as [[_ ->]|[_ ->]]; reflexivity).
      now rewrite Hk2.
    - intros k Hin Hk.
      unfold is_object in Hobj. rewrite own_keys_app in Hobj.
      apply List.NoDup_app_remove_l in Hobj. cbn [own_keys List.map fst] in Hobj.
      apply List.NoDup_cons_iff in Hobj as [Hnot1 Hobj].
      fold (own_keys (between ++ (k2, v2) :: after)%list) in Hnot1, Hobj.
      rewrite own_keys_app in Hnot1, Hobj.
      apply List.NoDup_app_remove_l in Hobj. cbn [own_keys List.map fst] in Hobj.
      apply List.NoDup_cons_iff in Hobj as [Hnot2 _].
      assert (Hk12 : k = k2 \/ k = k1).
      { unfold normalizedKey in Hk.
        destruct (String.eqb_spec k "jobtitle") as [->|];
          destruct Hkeys as [[-> ->]|[-> ->]]; auto. }
      destruct Hk12 as [->| ->].
      + apply Hnot2. exact Hin.
      + apply Hnot1. apply in_or_app. right. right. exact Hin. }
  split; [exact Hfirst|].
  rewrite get_removeNulls by apply normalizeFieldNames_is_object. now rewrite Hfirst.
Qed.

(** An override with [jobTitle], then a null [jobtitle]. *)
Lemma later_spelling_decides_witness :
  is_object Fixture.clash_null
  /\ get_prop "jobTitle" (normalizeFieldNames Fixture.clash_null) = Some JNull
  /\ get_prop "jobTitle" (removeNulls (normalizeFieldNames Fixture.clash_null)) = None.
Proof.
  assert (Hobj : is_object Fixture.clash_null) by object_tac.
  split; [exact Hobj|].
  exact (later_spelling_decides [] [] [] "jobTitle" "jobtitle"
           (JStr "Staff Engineer") JNull Hobj (or_intror (conj eq_refl eq_refl))).
Defined.

(** ** The scaffold *)

Section ScaffoldProperties.

Variable JSON_stringify : json -> string.

(** X10. After [createOverrideTemplate] the override file exists, and no
    later call changes the directory, whatever speakers and extra fields it
    is given: a scaffold written for one meetup or one list of extra fields
    is never refreshed when the speakers or the configuration change. *)
Theorem scaffold_is_never_refreshed
    (speakers1 extraFields1 speakers2 extraFields2 : list string) (fs : FS) :
  existsSync overridePath
    (createOverrideTemplate JSON_stringify speakers1 extraFields1 fs) = true
  /\ createOverrideTemplate JSON_stringify speakers2 extraFields2
       (createOverrideTemplate JSON_stringify speakers1 extraFields1 fs)
     = createOverrideTemplate JSON_stringify speakers1 extraFields1 fs.
Proof.
  pose proof (createOverrideTemplate_override JSON_stringify speakers1 extraFields1 fs)
    as Hlookup.
  assert (Hexists : exists content,
            createOverrideTemplate JSON_stringify speakers1 extraFields1 fs
              !! overridePath = Some content).
  { rewrite Hlookup. destruct (fs !! overridePath); eauto. }
  destruct Hexists as [content Hcontent]. split.
  - unfold existsSync. now rewrite Hcontent.
  - now apply (createOverrideTemplate_present JSON_stringify _ _ _ content).
Qed.

End ScaffoldProperties.

(** ** The sponsor slide *)

Lemma prefix_append (p s : string) : String.prefix p (p ++ s) = true.
Proof.
  induction p as [|c p IH]; simpl.
  - now destruct s.
  - destruct (ascii_dec c c); [exact IH | congruence].
Qed.

Lemma drop_chars_append (p s : string) : drop_chars (String.length p) (p ++ s) = s.
Proof. induction p as [|c p IH]; simpl; [reflexivity | exact IH]. Qed.

Lemma replace_first_unfold (p r s : string) :
  replace_first p r s =
  if String.prefix p s then r ++ drop_chars (String.length p) s
  else match s with
       | EmptyString => EmptyString
       | String c rest => String c (replace_first p r rest)
       end.
Proof. destruct s; reflexivity. Qed.

Lemma replace_first_prefix (p r s : string) : replace_first p r (p ++ s) = r ++ s.
Proof. now rewrite replace_first_unfold, prefix_append, drop_chars_append. Qed.

(** X11. The logo the sponsor slide shows for extracted data: when the
    first sponsor has a logo file, the computed logo is that file on the
    directus host (the frontend.mu asset URL that extraction built, with
    its host part replaced); a sponsor without logo gives null and a meetup
    without sponsor gives undefined; the computation never throws on
    extracted data. A logo URL that does not start with the frontend.mu
    asset prefix, as an override may supply, is shown unchanged. *)
Theorem sponsor_logo_is_rehosted :
  (forall sponsors : list Sponsor.t,
     sponsorLogo (extractSponsor sponsors) =
     match sponsors with
     | [] => Return None
     | first :: _ =>
         match Sponsor.Sponsor_id first with
         | None => Return None
         | Some sd =>
             match SponsorData.Logo sd with
             | Some logo =>
                 Return (Some (JStr ("https://directus.coders.mu/assets/"
                                     ++ Logo.filename_disk logo)))
             | None => Return (Some JNull)
             end
         end
     end)
  /\ (forall (s : obj) (logo : string),
        get_prop "logo" s = Some (JStr logo) ->
        String.prefix "https://frontend.mu/assets/" logo = false ->
        sponsorLogo (Some s) = Return (Some (JStr logo))).
Proof.
  split.
  - intros [|first rest]; [reflexivity|].
    unfold extractSponsor. cbn [hd_error].
    destruct (Sponsor.Sponsor_id first) as [sd|]; [|reflexivity].
    destruct (SponsorData.Logo sd) as [logo|]; [|reflexivity].
    unfold sponsorLogo, getSponsorLogoUrl.
    change (get_prop "logo" _)
      with (Some (JStr ("https://frontend.mu/assets/" ++ Logo.filename_disk logo))).
    cbv beta iota. now rewrite prefix_append, replace_first_prefix.
  - intros s logo Hget Hprefix. unfold sponsorLogo. now rewrite Hget, Hprefix.
Qed.

(** The sponsor of the fixture under an override that names a logo elsewhere. *)
Lemma sponsor_logo_is_rehosted_witness :
  sponsorLogo (Some [ ("name", JStr "Acme"); ("logo", JStr "https://acme.test/logo.svg") ])
  = Return (Some (JStr "https://acme.test/logo.svg")).
Proof.
  destruct sponsor_logo_is_rehosted as [_ Hother].
  exact (Hother [ ("name", JStr "Acme"); ("logo", JStr "https://acme.test/logo.svg") ]
           "https://acme.test/logo.svg" eq_refl eq_refl).
Defined.

(** ** The configuration reader *)

Section Characters.
Local Arguments String.append : simpl nomatch.

Lemma all_chars_impl (p q : ascii -> bool) s :
  (forall c, p c = true -> q c = true) -> all_chars p s = true -> all_chars q s = true.
Proof.
  intros H. induction s as [|c s IH]; simpl; [trivial|].
  rewrite !andb_true_iff. intros [Hc Hs]. split; [now apply H | now apply IH].
Qed.

Lemma all_chars_append p s t :
  all_chars p (s ++ t) = (all_chars p s && all_chars p t)%bool.
Proof.
  induction s as [|c s IH]; simpl; [reflexivity|]. now rewrite IH, andb_assoc.
Qed.

Lemma span_taken p s : all_chars p (fst (span p s)) = true.
Proof.
  induction s as [|c s IH]; simpl; [reflexivity|].
  destruct (p c) eqn:Hc; [|reflexivity].
  destruct (span p s) as [taken left]. simpl in *. now rewrite Hc, IH.
Qed.

Lemma span_left p q s :
  all_chars q s = true -> all_chars q (snd (span p s)) = true.
Proof.
  induction s as [|c s IH]; simpl; [trivial|].
  rewrite andb_true_iff. intros [Hc Hs].
  destruct (p c); [|simpl; now rewrite Hc, Hs].
  destruct (span p s) as [taken left]. simpl in *. now apply IH.
Qed.

Lemma span_append p a c rest :
  all_chars p a = true -> p c = false ->
  span p (a ++ String c rest) = (a, String c rest).
Proof.
  intros Ha Hc. induction a as [|d a IH]; simpl in *.
  - now rewrite Hc.
  - apply andb_true_iff in Ha as [Hd Ha]. now rewrite Hd, IH.
Qed.

Lemma match_id_at_digits s digits :
  match_id_at s = Some digits ->
  digits <> EmptyString /\ all_chars is_digit digits = true.
Proof.
  unfold match_id_at. destruct (String.prefix "id:" s); [|discriminate].
  destruct (snd (span is_space (drop_chars 3 s))) as [|q rest]; [discriminate|].
  destruct (is_quote q); [|discriminate].
  pose proof (span_taken is_digit rest) as Htaken.
  destruct (span is_digit rest) as [[|d taken] [|q' left]]; try discriminate.
  destruct (is_quote q'); [|discriminate].
  intros [= <-]. split; [discriminate | exact Htaken].
Qed.

Lemma first_match_found {A} (at_start : string -> option A) s x :
  first_match at_start s = Some x -> exists suffix, at_start suffix = Some x.
Proof.
  induction s as [|c s IH]; simpl.
  - destruct (at_start "") eqn:E; [intros [= <-]; eauto | discriminate].
  - destruct (at_start (String c s)) eqn:E; [intros [= <-]; eauto | exact IH].
Qed.

Lemma up_to_stops c s captured :
  up_to c s = Some captured ->
  all_chars (fun d => negb (Ascii.eqb d c)) captured = true.
Proof.
  revert captured. induction s as [|d s IH]; simpl; intros captured; [discriminate|].
  destruct (Ascii.eqb d c) eqn:E; [intros [= <-]; reflexivity|].
  destruct (up_to c s) as [t|]; [|discriminate].
  intros [= <-]. simpl. now rewrite E, IH.
Qed.

Lemma split_comma_nonempty s : split_comma s <> [].
Proof.
  induction s as [|c s IH]; simpl; [discriminate|].
  destruct (Ascii.eqb c ","); [discriminate|].
  destruct (split_comma s); [contradiction | discriminate].
Qed.

Lemma split_comma_pieces p s :
  all_chars p s = true ->
  Forall (fun piece => all_chars p piece = true) (split_comma s).
Proof.
  induction s as [|c s IH]; simpl.
  - intros _. constructor; [reflexivity | constructor].
  - rewrite andb_true_iff. intros [Hc Hs]. specialize (IH Hs).
    destruct (Ascii.eqb c ","); [constructor; [reflexivity | exact IH]|].
    destruct (split_comma s) as [|piece pieces]; [constructor; [simpl; now rewrite Hc | constructor]|].
    inversion IH; subst. constructor; [simpl; now rewrite Hc | assumption].
Qed.

Lemma split_comma_no_comma s :
  Forall (fun piece => all_chars (fun c => negb (Ascii.eqb c ",")) piece = true)
    (split_comma s).
Proof.
  induction s as [|c s IH]; simpl.
  - constructor; [reflexivity | constructor].
  - destruct (Ascii.eqb c ",") eqn:E; [constructor; [reflexivity | exact IH]|].
    destruct (split_comma s) as [|piece pieces]; [constructor; [simpl; now rewrite E | constructor]|].
    inversion IH; subst. constructor; [simpl; now rewrite E | assumption].
Qed.

Lemma trim_end_chars p s : all_chars p s = true -> all_chars p (trim_end s) = true.
Proof.
  induction s as [|c s IH]; simpl; [trivial|].
  rewrite andb_true_iff. intros [Hc Hs]. specialize (IH Hs).
  destruct (trim_end s) as [|d kept].
  - destruct (is_space c); [reflexivity | simpl; now rewrite Hc].
  - cbn [all_chars]. rewrite Hc. exact IH.
Qed.

Lemma trim_chars p s : all_chars p s = true -> all_chars p (trim s) = true.
Proof. intros H. unfold trim. apply trim_end_chars. now apply span_left. Qed.

Lemma strip_quotes_chars p s :
  all_chars p s = true -> all_chars p (strip_quotes s) = true.
Proof.
  induction s as [|c s IH]; simpl; [trivial|].
  rewrite andb_true_iff. intros [Hc Hs].
  destruct (is_quote c); [now apply IH | simpl; now rewrite Hc, IH].
Qed.

Lemma strip_quotes_no_quote s :
  all_chars (fun c => negb (is_quote c)) (strip_quotes s) = true.
Proof.
  induction s as [|c s IH]; simpl; [reflexivity|].
  destruct (is_quote c) eqn:E; [exact IH | simpl; now rewrite E, IH].
Qed.

Lemma all_chars_and p q s :
  all_chars p s = true -> all_chars q s = true ->
  all_chars (fun c => (p c && q c)%bool) s = true.
Proof.
  induction s as [|c s IH]; simpl; [trivial|].
  rewrite !andb_true_iff. intros [Hp Hs] [Hq Hs']. now rewrite Hp, Hq, IH.
Qed.

(** The fields of a list text: none is empty, none holds a quote or a
    comma, and each is made of characters of the text. *)
Lemma parse_extraFields_fields p fieldsStr :
  all_chars p fieldsStr = true ->
  Forall (fun field =>
            field <> EmptyString
            /\ all_chars (fun c => negb (is_quote c)) field = true
            /\ all_chars (fun c => negb (Ascii.eqb c ",")) field = true
            /\ all_chars p field = true)
    (parse_extraFields fieldsStr).
Proof.
  intros Hp. unfold parse_extraFields.
  pose proof (split_comma_pieces p fieldsStr Hp) as H1.
  pose proof (split_comma_no_comma fieldsStr) as H2.
  induction (split_comma fieldsStr) as [|piece pieces IH]; simpl; [constructor|].
  inversion H1; subst. inversion H2; subst.
  destruct (strip_quotes (trim piece)) as [|c field] eqn:E; simpl; [now apply IH|].
  constructor; [|now apply IH].
  rewrite <- E. split; [rewrite E; discriminate|].
  split; [apply strip_quotes_no_quote|].
  split; apply strip_quotes_chars, trim_chars; assumption.
Qed.

End Characters.

(** X12. What [readConfig] returns is clean: the meetup id is a non-empty
    string of decimal digits, and every extra field is non-empty and holds
    no quote, no comma and no closing bracket. *)
Theorem readConfig_result_is_clean (fs : FS) (config : Config.t) :
  readConfig fs = Return config ->
  Config.meetupId config <> EmptyString
  /\ all_chars is_digit (Config.meetupId config) = true
  /\ Forall (fun field =>
               field <> EmptyString
               /\ all_chars (fun c => negb (is_delimiter c)) field = true)
       (Config.speakerExtraFields config).
Proof.
  unfold readConfig, readFileSync.
  destruct (fs !! configPath) as [content|]; simpl; [|discriminate].
  destruct (first_match match_id_at content) as [meetupId|] eqn:Hid; simpl; [|discriminate].
  intros [= <-]. simpl.
  apply first_match_found in Hid as [suffix Hid].
  apply match_id_at_digits in Hid as [Hne Hdigits].
  split; [exact Hne|]. split; [exact Hdigits|].
  destruct (first_match match_extraFields_at content) as [fieldsStr|] eqn:Hfields;
    [|constructor].
  apply first_match_found in Hfields as [suffix' Hfields].
  unfold match_extraFields_at in Hfields.
  destruct (String.prefix "extraFields:" suffix'); [|discriminate].
  destruct (snd (span is_space (drop_chars 12 suffix'))) as [|b rest]; [discriminate|].
  destruct (Ascii.eqb b "["); [|discriminate].
  apply up_to_stops in Hfields.
  eapply List.Forall_impl; [|exact (parse_extraFields_fields _ _ Hfields)].
  intros field (Hfield & Hquote & Hcomma & Hbracket). split; [exact Hfield|].
  unfold is_delimiter.
  clear -Hquote Hcomma Hbracket.
  induction field as [|c field IH]; simpl in *; [reflexivity|].
  apply andb_true_iff in Hquote as [Hq Hquote].
  apply andb_true_iff in Hcomma as [Hc Hcomma].
  apply andb_true_iff in Hbracket as [Hb Hbracket].
  rewrite IH by assumption.
  destruct (is_quote c); [discriminate|].
  destruct (Ascii.eqb c ","); [discriminate|].
  destruct (Ascii.eqb c "]"); [discriminate | reflexivity].
Qed.

(** A configuration file with a quoted field that holds a comma. *)
Lemma readConfig_result_is_clean_witness :
  exists config,
    readConfig {[ configPath := "meetups: { id: '75' }, extraFields: ['a,b', c]" ]}
    = Return config
    /\ Config.meetupId config <> EmptyString
    /\ all_chars is_digit (Config.meetupId config) = true
    /\ Forall (fun field =>
                 field <> EmptyString
                 /\ all_chars (fun c => negb (is_delimiter c)) field = true)
         (Config.speakerExtraFields config).
Proof.
  eexists. split; [reflexivity|].
  exact (readConfig_result_is_clean
           {[ configPath := "meetups: { id: '75' }, extraFields: ['a,b', c]" ]}
           _ eq_refl).
Defined.

Section Canonical.
Local Arguments String.append : simpl nomatch.

Lemma first_match_here {A} (at_start : string -> option A) s x :
  at_start s = Some x -> first_match at_start s = Some x.
Proof. intros H. destruct s; simpl; now rewrite H. Qed.

Lemma match_id_at_canonical digits rest :
  digits <> EmptyString -> all_chars is_digit digits = true ->
  match_id_at ("id: '" ++ digits ++ String "'" rest) = Some digits.
Proof.
  intros Hne Hdigits. unfold match_id_at.
  change ("id: '" ++ digits ++ String "'" rest)
    with ("id:" ++ (" " ++ String "'" (digits ++ String "'" rest))).
  rewrite prefix_append.
  change 3 with (String.length "id:"). rewrite drop_chars_append.
  rewrite (span_append is_space " " "'") by reflexivity.
  cbn [snd]. change (is_quote "'") with true. cbv iota.
  rewrite (span_append is_digit digits "'" rest Hdigits eq_refl).
  destruct digits; [contradiction | reflexivity].
Qed.

Lemma match_extraFields_at_other c s :
  Ascii.eqb c "e" = false -> match_extraFields_at (String c s) = None.
Proof.
  intros H. unfold match_extraFields_at. cbn [String.prefix].
  destruct (ascii_dec "e" c) as [<-|_]; [discriminate | reflexivity].
Qed.

Lemma first_match_skip a s :
  all_chars (fun c => negb (Ascii.eqb c "e")) a = true ->
  first_match match_extraFields_at (a ++ s) = first_match match_extraFields_at s.
Proof.
  induction a as [|c a IH]; simpl; [trivial|].
  rewrite andb_true_iff, negb_true_iff. intros [Hc Ha].
  rewrite match_extraFields_at_other by assumption. now apply IH.
Qed.

Lemma up_to_append c a rest :
  all_chars (fun d => negb (Ascii.eqb d c)) a = true ->
  up_to c (a ++ String c rest) = Some a.
Proof.
  induction a as [|d a IH]; simpl.
  - intros _. now rewrite Ascii.eqb_refl.
  - rewrite andb_true_iff, negb_true_iff. intros [Hd Ha]. now rewrite Hd, IH.
Qed.

Lemma match_extraFields_at_canonical listText rest :
  all_chars (fun d => negb (Ascii.eqb d "]")) listText = true ->
  match_extraFields_at ("extraFields: [" ++ listText ++ String "]" rest) = Some listText.
Proof.
  intros H. unfold match_extraFields_at.
  change ("extraFields: [" ++ listText ++ String "]" rest)
    with ("extraFields:" ++ (" " ++ String "[" (listText ++ String "]" rest))).
  rewrite prefix_append.
  change 12 with (String.length "extraFields:"). rewrite drop_chars_append.
  rewrite (span_append is_space " " "[") by reflexivity.
  cbn [snd]. change (Ascii.eqb "[" "[") with true. cbv iota.
  now apply up_to_append.
Qed.

Lemma split_comma_append a rest :
  all_chars (fun c => negb (Ascii.eqb c ",")) a = true ->
  split_comma (a ++ String "," rest) = a :: split_comma rest.
Proof.
  induction a as [|c a IH]; simpl.
  - reflexivity.
  - rewrite andb_true_iff, negb_true_iff. intros [Hc Ha]. now rewrite Hc, IH.
Qed.

Lemma split_comma_single a :
  all_chars (fun c => negb (Ascii.eqb c ",")) a = true -> split_comma a = [a].
Proof.
  induction a as [|c a IH]; simpl; [reflexivity|].
  rewrite andb_true_iff, negb_true_iff. intros [Hc Ha]. now rewrite Hc, IH.
Qed.

Lemma trim_end_keeps s c :
  is_space c = false -> trim_end (s ++ String c "") = s ++ String c "".
Proof.
  intros Hc. induction s as [|d s IH]; simpl.
  - now rewrite Hc.
  - rewrite IH. destruct s; reflexivity.
Qed.

Lemma strip_quotes_plain field rest :
  all_chars (fun c => negb (is_quote c)) field = true ->
  strip_quotes (field ++ rest) = field ++ strip_quotes rest.
Proof.
  induction field as [|c field IH]; simpl; [reflexivity|].
  rewrite andb_true_iff, negb_true_iff. intros [Hc Hf]. now rewrite Hc, IH.
Qed.

Lemma append_empty_r (s : string) : s ++ "" = s.
Proof. induction s as [|c s IH]; simpl; [reflexivity | now rewrite IH]. Qed.

Lemma plain_name_chars field (q : ascii -> bool) :
  (forall c, (is_space c || is_delimiter c)%bool = false -> q c = true) ->
  plain_name field -> all_chars q field = true.
Proof.
  intros Hq [_ H]. eapply all_chars_impl; [|exact H].
  intros c Hc. apply Hq. now apply negb_true_iff.
Qed.

(** One quoted field, possibly after the blank that follows a comma, is
    read back as the field. *)
Lemma field_read_back field :
  plain_name field ->
  strip_quotes (trim ("'" ++ field ++ "'")) = field
  /\ strip_quotes (trim (" '" ++ field ++ "'")) = field.
Proof.
  intros Hplain.
  assert (Hquote : all_chars (fun c => negb (is_quote c)) field = true).
  { apply (plain_name_chars field); [|exact Hplain].
    intros c Hc. unfold is_delimiter in Hc.
    destruct (is_quote c); [|reflexivity].
    now rewrite orb_true_r in Hc. }
  assert (Htrim : trim ("'" ++ field ++ "'") = "'" ++ field ++ "'").
  { unfold trim. change ("'" ++ field ++ "'") with (String "'" (field ++ "'")).
    cbn [span]. change (is_space "'") with false. cbv iota. cbn [snd].
    exact (trim_end_keeps (String "'" field) "'" eq_refl). }
  assert (Hstrip : strip_quotes ("'" ++ field ++ "'") = field).
  { change ("'" ++ field ++ "'") with (String "'" (field ++ "'")).
    cbn [strip_quotes]. change (is_quote "'") with true. cbv iota.
    rewrite strip_quotes_plain by exact Hquote.
    cbn [strip_quotes]. change (is_quote "'") with true. cbv iota.
    apply append_empty_r. }
  split.
  - now rewrite Htrim.
  - assert (Hsame : trim (" '" ++ field ++ "'") = trim ("'" ++ field ++ "'")).
    { unfold trim. change (" '" ++ field ++ "'") with (String " " ("'" ++ field ++ "'")).
      cbn [span]. change (is_space " ") with true. cbv iota.
      destruct (span is_space ("'" ++ field ++ "'")) as [taken left]. reflexivity. }
    now rewrite Hsame, Htrim.
Qed.
End Canonical.

Section ListText.
Local Arguments String.append : simpl nomatch.

Lemma quoted_chars field (q : ascii -> bool) :
  q "'"%char = true ->
  (forall c, (is_space c || is_delimiter c)%bool = false -> q c = true) ->
  plain_name field -> all_chars q ("'" ++ field ++ "'") = true.
Proof.
  intros Hquote Hq Hplain.
  change ("'" ++ field ++ "'") with (String "'" (field ++ "'")).
  cbn [all_chars]. rewrite Hquote, all_chars_append.
  rewrite (plain_name_chars field q Hq Hplain). simpl. now rewrite Hquote.
Qed.

Lemma list_text_chars fields (q : ascii -> bool) :
  q "'"%char = true -> q ","%char = true -> q " "%char = true ->
  (forall c, (is_space c || is_delimiter c)%bool = false -> q c = true) ->
  Forall plain_name fields ->
  all_chars q (String.concat ", " (List.map (fun field => "'" ++ field ++ "'") fields))
  = true.
Proof.
  intros Hquote Hcomma Hblank Hq Hplain.
  induction Hplain as [|field rest Hfield Hrest IH]; [reflexivity|].
  destruct rest as [|next rest].
  - simpl. now apply quoted_chars.
  - change (String.concat ", "
              (List.map (fun f => "'" ++ f ++ "'") (field :: next :: rest)))
      with (("'" ++ field ++ "'") ++ ", "
            ++ String.concat ", " (List.map (fun f => "'" ++ f ++ "'") (next :: rest))).
    rewrite (all_chars_append q ("'" ++ field ++ "'")).
    rewrite (quoted_chars field q Hquote Hq Hfield).
    rewrite (all_chars_append q ", "), IH.
    simpl. now rewrite Hcomma, Hblank.
Qed.

Lemma list_text_pieces field rest :
  Forall plain_name (field :: rest) ->
  split_comma
    (String.concat ", " (List.map (fun f => "'" ++ f ++ "'") (field :: rest)))
  = ("'" ++ field ++ "'") :: List.map (fun f => " '" ++ f ++ "'") rest.
Proof.
  revert field. induction rest as [|next rest IH]; intros field Hplain.
  - change (String.concat ", " (List.map (fun f => "'" ++ f ++ "'") [field]))
      with ("'" ++ field ++ "'").
    cbn [List.map]. apply split_comma_single. inversion Hplain; subst.
    apply quoted_chars; [reflexivity | | assumption].
    intros c Hc. unfold is_delimiter in Hc.
    destruct (Ascii.eqb c ","); [|reflexivity].
    now rewrite !orb_true_r in Hc.
  - inversion Hplain as [|? ? Hfield Hrest]; subst.
    change (String.concat ", "
              (List.map (fun f => "'" ++ f ++ "'") (field :: next :: rest)))
      with (("'" ++ field ++ "'")
            ++ String ","
                 (String " "
                    (String.concat ", "
                       (List.map (fun f => "'" ++ f ++ "'") (next :: rest))))).
    rewrite split_comma_append.
    + f_equal. cbn [split_comma]. change (Ascii.eqb " " ",") with false. cbv iota.
      rewrite (IH next Hrest). reflexivity.
    + apply quoted_chars; [reflexivity | | assumption].
      intros c Hc. unfold is_delimiter in Hc.
      destruct (Ascii.eqb c ","); [|reflexivity].
      now rewrite !orb_true_r in Hc.
Qed.

Lemma parse_list_text fields :
  Forall plain_name fields ->
  parse_extraFields
    (String.concat ", " (List.map (fun field => "'" ++ field ++ "'") fields))
  = fields.
Proof.
  intros Hplain. unfold parse_extraFields.
  destruct fields as [|field rest]; [reflexivity|].
  rewrite (list_text_pieces field rest Hplain).
  inversion Hplain as [|? ? Hfield Hrest]; subst.
  cbn [List.map]. rewrite (proj1 (field_read_back field Hfield)).
  assert (Hkept : forall f, plain_name f -> negb (Nat.eqb (String.length f) 0) = true).
  { intros f [Hne _]. destruct f; [contradiction | reflexivity]. }
  cbn [List.filter]. rewrite (Hkept field Hfield). f_equal.
  clear Hplain Hfield. induction Hrest as [|next rest Hnext _ IH]; [reflexivity|].
  cbn [List.map List.filter].
  rewrite (proj2 (field_read_back next Hnext)), (Hkept next Hnext). now f_equal.
Qed.

End ListText.

(** X13. A configuration in the usual form is read back: for a non-empty
    string of digits and any list of plain field names (non-empty, without
    white space, quote, comma or closing bracket), the text
    [id: 'D', extraFields: ['f1', 'f2', ...]] gives the meetup id [D] and
    the fields in their order, duplicates kept. *)
Theorem canonical_config_is_read_back
    (meetupId : string) (fields : list string) (fs : FS) :
  meetupId <> EmptyString ->
  all_chars is_digit meetupId = true ->
  Forall plain_name fields ->
  fs !! configPath = Some (config_text meetupId fields) ->
  readConfig fs
  = Return {| Config.meetupId := meetupId; Config.speakerExtraFields := fields |}.
Proof.
  intros Hne Hdigits Hplain Hfile.
  set (listText := String.concat ", " (List.map (fun field => "'" ++ field ++ "'") fields)).
  assert (Hid : first_match match_id_at (config_text meetupId fields) = Some meetupId).
  { apply first_match_here.
    change (config_text meetupId fields)
      with ("id: '" ++ meetupId ++ String "'" (", extraFields: [" ++ listText ++ "]")).
    now apply match_id_at_canonical. }
  assert (Hfields : first_match match_extraFields_at (config_text meetupId fields)
                    = Some listText).
  { change (config_text meetupId fields)
      with ("id: '" ++ (meetupId ++ ("', " ++ ("extraFields: [" ++ listText
                                                 ++ String "]" "")))).
    rewrite first_match_skip by reflexivity.
    rewrite first_match_skip.
    - rewrite first_match_skip by reflexivity.
      apply first_match_here. apply match_extraFields_at_canonical.
      apply list_text_chars; try reflexivity; [|exact Hplain].
      intros c Hc. unfold is_delimiter in Hc.
      destruct (Ascii.eqb c "]"); [|reflexivity].
      now rewrite !orb_true_r in Hc.
    - eapply all_chars_impl; [|exact Hdigits].
      intros c Hc. unfold is_digit in Hc.
      destruct (Ascii.eqb_spec c "e") as [->|]; [discriminate | reflexivity]. }
  unfold readConfig, readFileSync. rewrite Hfile. cbn [bind try_catch].
  rewrite Hid, Hfields. unfold listText. now rewrite parse_list_text.
Qed.

(** The configuration of the fixture. *)
Lemma canonical_config_is_read_back_witness :
  readConfig {[ configPath := "id: '42', extraFields: ['company', 'jobtitle']" ]}
  = Return Fixture.config.
Proof.
  apply (canonical_config_is_read_back "42" ["company"; "jobtitle"]).
  - discriminate.
  - reflexivity.
  - repeat constructor; discriminate.
  - reflexivity.
Defined.

(** ** The earlier script and the first run *)

Lemma applyOverrides_without_effect (data : MeetupData.t)
    (overrides : option MeetupDataOverride.t) :
  match overrides with Some ov => null_only ov | None => True end ->
  applyOverrides data overrides = data.
Proof.
  destruct overrides as [ov|]; [|reflexivity].
  intros (Hm & Hs & Hp). destruct data as [meetup speakers sponsor].
  unfold applyOverrides. simpl. f_equal.
  - destruct (MeetupDataOverride.meetup ov) as [o|]; [|reflexivity].
    apply apply_section_all_null. now apply Hm.
  - destruct (MeetupDataOverride.speakers ov) as [m|]; [|reflexivity].
    specialize (Hs m eq_refl).
    induction speakers as [|sp rest IH]; simpl; [reflexivity|].
    now rewrite apply_speaker_all_null, IH.
  - destruct (MeetupDataOverride.sponsor ov) as [o|]; [|reflexivity].
    destruct sponsor as [s|]; [|reflexivity].
    f_equal. apply apply_section_all_null. now apply Hp.
Qed.

Section EarlierScript.

Variable JSON_parse : string -> result (option MeetupDataOverride.t).
Variable JSON_stringify : json -> string.
Variable parseInt : string -> option Z.

Lemma readOverrides_present (fs : FS) content :
  fs !! overridePath = Some content ->
  readOverrides JSON_parse fs
  = match JSON_parse content with
    | Return overrides => Return overrides
    | Throw _ => Return None
    end.
Proof.
  intros H. unfold readOverrides, existsSync, readFileSync. rewrite H. simpl.
  now destruct (JSON_parse content).
Qed.

(** X14. The script with overrides agrees with the earlier script without
    them whenever the override file has no effect (its text is rejected
    by [JSON.parse], or is [null], or holds only null sentinels): both fail
    with the same error, or both return the same data and leave the same
    text in [meetup-data.json]. *)
Theorem agrees_with_earlier_script
    (config : Config.t) (meetupsData : list Meetup.t) (fs : FS) :
  override_file_without_effect JSON_parse fs ->
  match
    legacy_fetchMeetupData JSON_stringify parseInt (Config.meetupId config) meetupsData fs,
    fetchMeetupData JSON_parse JSON_stringify parseInt config meetupsData fs
  with
  | Return (data, fs1), Return (data', fs2) =>
      data' = data /\ fs2 !! outputPath = fs1 !! outputPath
  | Throw e, Throw e' => e' = e
  | _, _ => False
  end.
Proof.
  intros (content & Hfile & Hparse).
  unfold legacy_fetchMeetupData.
  change (find _ meetupsData) with (find (has_configured_id parseInt config) meetupsData).
  destruct (find (has_configured_id parseInt config) meetupsData) as [meetup|] eqn:Hfind.
  - destruct (fetchMeetupData_found JSON_parse JSON_stringify parseInt
                config meetupsData meetup fs Hfind)
      as (data & overrides & Hdata & Hread & Hrun).
    rewrite Hdata, Hrun. cbn [bind].
    rewrite (createOverrideTemplate_present JSON_stringify _ _ fs content Hfile) in Hread.
    rewrite (readOverrides_present fs content Hfile) in Hread.
    assert (Hsame : applyOverrides data overrides = data).
    { apply applyOverrides_without_effect.
      destruct (JSON_parse content) as [[ov|]|e]; injection Hread as <-;
        [exact Hparse | exact I | exact I]. }
    rewrite Hsame. split; [reflexivity|].
    rewrite generateSpeakerSlides_other;
      [| exact slidePath_not_output | discriminate].
    unfold writeFileSync. now rewrite !lookup_insert_eq.
  - unfold fetchMeetupData. now rewrite Hfind.
Qed.

(** X15. The first run in a directory without override file, when
    [JSON.parse] reads a scaffold back as a document of nulls: the scaffold
    the run writes has no effect on the data of that same run. The run
    returns the data as extracted, and leaves as override file the
    serialized scaffold for the extracted speaker names and the configured
    extra fields. *)
Theorem first_run_is_unmerged
    (config : Config.t) (meetupsData : list Meetup.t) (meetup : Meetup.t) (fs : FS) :
  (forall speakers extraFields,
     exists ov,
       JSON_parse (JSON_stringify (overrideTemplate speakers extraFields))
       = Return (Some ov)
       /\ null_only ov) ->
  find (has_configured_id parseInt config) meetupsData = Some meetup ->
  fs !! overridePath = None ->
  exists data fs',
    extractMeetupData meetup = Return data
    /\ fetchMeetupData JSON_parse JSON_stringify parseInt config meetupsData fs
       = Return (data, fs')
    /\ fs' !! overridePath
       = Some (JSON_stringify
                 (overrideTemplate (speaker_names (MeetupData.speakers data))
                    (Config.speakerExtraFields config))).
Proof.
  intros Hscaffold Hfind Hfile.
  destruct (fetchMeetupData_found JSON_parse JSON_stringify parseInt
              config meetupsData meetup fs Hfind)
    as (data & overrides & Hdata & Hread & Hrun).
  pose proof (createOverrideTemplate_override JSON_stringify
                (speaker_names (MeetupData.speakers data))
                (Config.speakerExtraFields config) fs) as Hwritten.
  rewrite Hfile in Hwritten.
  rewrite (readOverrides_present _ _ Hwritten) in Hread.
  destruct (Hscaffold (speaker_names (MeetupData.speakers data))
              (Config.speakerExtraFields config)) as (ov & Hparse & Hnull).
  rewrite Hparse in Hread. injection Hread as <-.
  rewrite (applyOverrides_without_effect data (Some ov) Hnull) in Hrun.
  eexists. eexists. split; [exact Hdata|]. split; [exact Hrun|].
  rewrite generateSpeakerSlides_other;
    [| exact slidePath_not_override | discriminate].
  unfold writeFileSync. rewrite lookup_insert_ne by discriminate. exact Hwritten.
Qed.

End EarlierScript.

(** The directory with the malformed override file. *)
Lemma agrees_with_earlier_script_witness :
  override_file_without_effect Fixture.parse Fixture.broken_fs
  /\ match
       legacy_fetchMeetupData Fixture.print Fixture.parse_id
         (Config.meetupId Fixture.config) [Fixture.meetup42] Fixture.broken_fs,
       fetchMeetupData Fixture.parse Fixture.print Fixture.parse_id Fixture.config
         [Fixture.meetup42] Fixture.broken_fs
     with
     | Return (data, fs1), Return (data', fs2) =>
         data' = data /\ fs2 !! outputPath = fs1 !! outputPath
     | Throw e, Throw e' => e' = e
     | _, _ => False
     end.
Proof.
  assert (H : override_file_without_effect Fixture.parse Fixture.broken_fs).
  { exists "{ meetup: {}, }". split; [reflexivity | exact I]. }
  split; [exact H|].
  exact (agrees_with_earlier_script Fixture.parse Fixture.print Fixture.parse_id
           Fixture.config [Fixture.meetup42] Fixture.broken_fs H).
Defined.

(** The first run in an empty directory. *)
Lemma first_run_is_unmerged_witness :
  exists data fs',
    extractMeetupData Fixture.meetup42 = Return data
    /\ fetchMeetupData Fixture.parse_nulls Fixture.print Fixture.parse_id Fixture.config
         [Fixture.meetup42] ∅
       = Return (data, fs')
    /\ fs' !! overridePath
       = Some (Fixture.print
                 (overrideTemplate (speaker_names (MeetupData.speakers data))
                    (Config.speakerExtraFields Fixture.config))).
Proof.
  apply (first_run_is_unmerged Fixture.parse_nulls Fixture.print Fixture.parse_id
           Fixture.config [Fixture.meetup42] Fixture.meetup42 ∅).
  - intros speakers extraFields. exists Fixture.nulls. split; [reflexivity|].
    unfold null_only, all_null. repeat split.
    + intros o E. injection E as <-. repeat constructor.
    + intros m E. injection E as <-. repeat constructor.
    + intros o E. injection E as <-. repeat constructor.
  - reflexivity.
  - reflexivity.
Defined.
